(** * UrbanPulse+ : a shallow embedding of the application logic

    The repository is a React Native front-end (screens Login, Home,
    Settings, TravelNews under a root [App]) together with one standalone
    C++ numeric solver.  Each module below embeds one source unit:

    - [SettingsScreen]   : src/src/screens/SettingsScreen.js
    - [TravelNewsScreen] : src/src/screens/TravelNewsScreen.js
    - [Timers]           : the host's setTimeout / setInterval queue
    - [LoginScreen]      : the LoginScreen component (handleGoogleLogin,
                           handleEmailLogin)
    - [HomeScreen]       : the HomeScreen component (handleSearch)
    - [MapSection]       : the MapSection component (effect, fetchRoute,
                           generateMapHTML)
    - [App]              : the root component
    - [Solver]           : the C++ program
    - [HomeWithMap]      : [HomeScreen] rendering [MapSection]

    JavaScript objects used as maps are [gmap string _]; component state
    is a record; handlers are state transformers that also append to a
    trace of observable calls; timers are a queue of defunctionalised
    callbacks. *)

From stdpp Require Import gmap strings list fin_maps pretty sorting.
From Stdlib Require Import ZArith NArith Ascii.

#[local] Set Warnings "-clear-no-such-hyp".

Open Scope string_scope.

(* ===================================================================== *)
(** ** SettingsScreen.js *)
(* ===================================================================== *)

Module SettingsScreen.

(** [useState({...})] : the initial settings object. *)
Definition settings_init : gmap string bool :=
  list_to_map
    [ ("highSafetyMode", true);
      ("accessibilityMode", false);
      ("personalization", true);
      ("notifications", true);
      ("locationServices", true);
      ("dataUsage", false);
      ("darkMode", false) ].

(** The seven property names of the settings object. *)
Definition setting_keys : list string :=
  [ "highSafetyMode"; "accessibilityMode"; "personalization";
    "notifications"; "locationServices"; "dataUsage"; "darkMode" ].

(** The property names every object inherits from [Object.prototype].
    The settings object is made by an object literal, so a name it does
    not carry itself is looked up there; each of these names holds a
    function or an object, which is truthy. *)
Definition Object_prototype : list string :=
  [ "constructor"; "__defineGetter__"; "__defineSetter__";
    "hasOwnProperty"; "__lookupGetter__"; "__lookupSetter__";
    "isPrototypeOf"; "propertyIsEnumerable"; "toString"; "valueOf";
    "__proto__"; "toLocaleString" ].

(** [prev[setting]] used as a condition: the boolean of an own property;
    for a name the object does not carry, true when the name is
    inherited and false ([undefined]) otherwise. *)
Definition prop_truthy (prev : gmap string bool) (setting : string) : bool :=
  match prev !! setting with
  | Some b => b
  | None => bool_decide (setting ∈ Object_prototype)
  end.

(** [!prev[setting]] *)
Definition not_prop (prev : gmap string bool) (setting : string) : bool :=
  negb (prop_truthy prev setting).

(** [setSettings(prev => ({...prev, [setting]: !prev[setting]}))] :
    the updater function passed to [setSettings]. *)
Definition handleToggle (setting : string) (prev : gmap string bool)
  : gmap string bool :=
  <[setting := not_prop prev setting]> prev.

(** A settings state: an object carrying exactly the seven keys. *)
Definition settings_state (s : gmap string bool) : Prop :=
  dom s = list_to_set setting_keys.

(** The keys of the switches the screen renders, in the order of the
    [renderSettingItem] calls (their [settingKey] argument). *)
Definition switch_keys : list string :=
  [ "highSafetyMode"; "accessibilityMode"; "personalization"; "darkMode";
    "notifications"; "locationServices"; "dataUsage" ].

(** [value={settings[settingKey]}] : what the switch of a key shows;
    [None] is [undefined]. *)
Definition switch_value (settings : gmap string bool) (settingKey : string)
  : option bool := settings !! settingKey.

(** The settings after the switches of the keys [ks] were flipped one
    after the other. *)
Definition toggles (ks : list string) (s : gmap string bool)
  : gmap string bool :=
  foldl (λ s k, handleToggle k s) s ks.

End SettingsScreen.

(* ===================================================================== *)
(** ** TravelNewsScreen.js *)
(* ===================================================================== *)

Module TravelNewsScreen.

(** One element of [newsData]. *)
Record article := Article {
  id : nat;
  title : string;
  summary : string;
  content : string;
  category : string;
  author : string;
  publishTime : string;
  readTime : string;
  image : string;
  tags : list string;
  likes : nat;
  comments : nat;
  isBookmarked : bool
}.

#[export] Instance article_eq_dec : EqDecision article.
Proof. solve_decision. Defined.

Definition newsData : list article := [
  {| id := 1;
     title := "New Green Corridor Opens in Delhi";
     summary :=
       "Dedicated cycling lanes connecting major parks and green spaces across the capital city.";
     content :=
       "The Delhi government has inaugurated a new 15km green corridor connecting Lodhi Gardens to Central Park. This initiative aims to promote eco-friendly transportation and reduce carbon emissions in the city.";
     category := "environment";
     author := "Delhi Transport Authority";
     publishTime := "2 hours ago";
     readTime := "3 min read";
     image :=
       "https://images.unsplash.com/photo-1602407294553-68e1a74691dd?auto=format&fit=crop&w=800&q=60";
     tags := ["Green Transport"; "Delhi"; "Cycling"];
     likes := 124;
     comments := 23;
     isBookmarked := false |};
  {| id := 2;
     title := "Mandi Tourism Booms with Eco-Friendly Initiatives";
     summary :=
       "Local government promotes sustainable travel with new eco-tourism packages.";
     content :=
       "Mandi district has launched several eco-friendly tourism initiatives including electric vehicle rentals, solar-powered accommodations, and guided nature walks through pristine forests.";
     category := "environment";
     author := "Himachal Tourism Board";
     publishTime := "4 hours ago";
     readTime := "4 min read";
     image :=
       "https://images.unsplash.com/photo-1526778548025-fa2f459cd5c1?auto=format&fit=crop&w=800&q=60";
     tags := ["Eco Tourism"; "Mandi"; "Sustainability"];
     likes := 89;
     comments := 15;
     isBookmarked := true |};
  {| id := 3;
     title := "Weather Alert: Pleasant Conditions Expected";
     summary :=
       "Perfect weather forecast for outdoor activities and travel across northern India.";
     content :=
       "Meteorological department predicts clear skies and comfortable temperatures for the next week, making it ideal for road trips and outdoor adventures.";
     category := "weather";
     author := "India Meteorological Department";
     publishTime := "6 hours ago";
     readTime := "2 min read";
     image :=
       "https://images.unsplash.com/photo-1506744038136-46273834b3fb?auto=format&fit=crop&w=800&q=60";
     tags := ["Weather"; "Travel"; "Forecast"];
     likes := 67;
     comments := 8;
     isBookmarked := false |};
  {| id := 4;
     title := "Enhanced Safety Measures on NH44";
     summary :=
       "New safety installations and improved lighting on the Delhi-Mandi highway route.";
     content :=
       "The National Highways Authority has installed advanced safety barriers, improved street lighting, and emergency response stations along the NH44 corridor.";
     category := "safety";
     author := "National Highways Authority";
     publishTime := "8 hours ago";
     readTime := "3 min read";
     image :=
       "https://images.unsplash.com/photo-1587740896339-2e6d1a6936fc?auto=format&fit=crop&w=800&q=60";
     tags := ["Safety"; "NH44"; "Highway"];
     likes := 156;
     comments := 31;
     isBookmarked := true |};
  {| id := 5;
     title := "Traffic Optimization in Major Cities";
     summary :=
       "Smart traffic management systems reduce congestion by 30% in urban areas.";
     content :=
       "AI-powered traffic management systems have been successfully implemented in major cities, resulting in significant reduction in traffic congestion and improved air quality.";
     category := "traffic";
     author := "Smart City Initiative";
     publishTime := "12 hours ago";
     readTime := "5 min read";
     image :=
       "https://images.unsplash.com/photo-1544197150-b99a580bb7a8?auto=format&fit=crop&w=800&q=60";
     tags := ["Smart City"; "AI"; "Traffic Management"];
     likes := 203;
     comments := 45;
     isBookmarked := false |};
  {| id := 6;
     title := "Electric Vehicle Charging Stations Expand";
     summary :=
       "New EV charging infrastructure makes long-distance electric travel more feasible.";
     content :=
       "Over 200 new electric vehicle charging stations have been installed along major highways, making electric vehicle travel more convenient and accessible.";
     category := "environment";
     author := "Electric Vehicle Council";
     publishTime := "1 day ago";
     readTime := "4 min read";
     image :=
       "https://images.unsplash.com/photo-1615906658185-10233b1b87b7?auto=format&fit=crop&w=800&q=60";
     tags := ["Electric Vehicles"; "Infrastructure"; "Sustainability"];
     likes := 178;
     comments := 29;
     isBookmarked := true |}
].

(** [selectedCategory === 'all' ? newsData
      : newsData.filter((item) => item.category === selectedCategory)] *)
Definition filteredNews (selectedCategory : string) : list article :=
  if decide (selectedCategory = "all") then newsData
  else filter (λ item, category item = selectedCategory) newsData.


(** One chip of the category filter. *)
Record chip := Chip { chip_id : string; chip_name : string;
                      chip_icon : string }.

Definition categories : list chip := [
  {| chip_id := "all"; chip_name := "All"; chip_icon := "apps" |};
  {| chip_id := "environment"; chip_name := "Environment";
     chip_icon := "eco" |};
  {| chip_id := "safety"; chip_name := "Safety"; chip_icon := "security" |};
  {| chip_id := "traffic"; chip_name := "Traffic"; chip_icon := "traffic" |};
  {| chip_id := "weather"; chip_name := "Weather"; chip_icon := "wb-sunny" |}
].

(** The values [selectedCategory] can take: it starts as 'all' and the
    only call of [setSelectedCategory] is the [onPress] of a chip, with
    the id of that chip. *)
Definition selectedCategory_init : string := "all".

Definition press_chip (c : chip) (selectedCategory : string) : string :=
  chip_id c.

(** [filteredNews.map((item, index) => renderNewsCard(item, index))] as
    far as images go: every card rendered holds
    [<Image source={{ uri: item.image }} />], an image the host fetches
    from its address.  The addresses of the cards rendered, in order. *)
Definition image_uris (selectedCategory : string) : list string :=
  image <$> filteredNews selectedCategory.

End TravelNewsScreen.

(* ===================================================================== *)
(** ** The host timer queue: setTimeout, setInterval, clearInterval *)
(* ===================================================================== *)

Module Timers.
Section queue.
Context {callback : Type}.

(** A scheduled timer: its id, the time (ms) at which it is due, its
    period when it was created by [setInterval], and the callback. *)
Record timer := Timer {
  timer_id : nat;
  due : N;
  period : option N;
  action : callback
}.

(** The clock, the next fresh timer id and the timers not yet fired,
    in the order in which they were scheduled. *)
Record queue := Queue {
  now : N;
  next_id : nat;
  pending : list timer
}.

Definition schedule (p : option N) (cb : callback) (delay : N)
    (q : queue) : nat * queue :=
  (next_id q,
   {| now := now q;
      next_id := S (next_id q);
      pending := pending q ++ [Timer (next_id q) (now q + delay) p cb] |}).

Definition setTimeout (cb : callback) (delay : N) (q : queue)
  : nat * queue := schedule None cb delay q.

Definition setInterval (cb : callback) (delay : N) (q : queue)
  : nat * queue := schedule (Some delay) cb delay q.

Definition without (i : nat) (l : list timer) : list timer :=
  filter (λ t, timer_id t ≠ i) l.

Definition clearInterval (i : nat) (q : queue) : queue :=
  {| now := now q; next_id := next_id q;
     pending := without i (pending q) |}.

(** The timer that fires next: the one due first, and among timers
    due at the same time the one scheduled first. *)
Fixpoint earliest (t : timer) (l : list timer) : timer :=
  match l with
  | [] => t
  | t' :: l' =>
      if (due t' <? due t)%N then earliest t' l' else earliest t l'
  end.

(** Fire the next timer: the clock moves to its due time, a timeout
    leaves the queue and an interval is scheduled again one period
    later; the callback is returned for the caller to run. *)
Definition fire (q : queue) : option (timer * queue) :=
  match pending q with
  | [] => None
  | t :: l =>
      let t0 := earliest t l in
      let rest := without (timer_id t0) (pending q) in
      Some (t0,
            {| now := N.max (now q) (due t0);
               next_id := next_id q;
               pending :=
                 match period t0 with
                 | None => rest
                 | Some p =>
                     rest ++ [Timer (timer_id t0) (due t0 + p) (Some p)
                                    (action t0)]
                 end |})
  end.

(** The event loop over a world that holds a queue: [tick] fires one
    timer and runs its callback, [run] does so until the queue is
    empty or the fuel is spent. *)
Context {world : Type}.
Variable get_queue : world → queue.
Variable set_queue : queue → world → world.
Variable dispatch : callback → world → world.

Definition tick (w : world) : option world :=
  match fire (get_queue w) with
  | None => None
  | Some (t, q) => Some (dispatch (action t) (set_queue q w))
  end.

Fixpoint run (fuel : nat) (w : world) : world :=
  match fuel with
  | O => w
  | S n => match tick w with None => w | Some w' => run n w' end
  end.

Definition quiescent (w : world) : Prop := pending (get_queue w) = [].

End queue.
Arguments timer : clear implicits.
Arguments queue : clear implicits.
End Timers.

(* ===================================================================== *)
(** ** LoginScreen *)
(* ===================================================================== *)

Module LoginScreen.

(** The two arrow functions handed to [setTimeout]. *)
Inductive callback :=
| GoogleLoginDone     (* () => { setIsLoading(false); onLogin(); } *)
| EmailLoginDone.     (* () => { setIsLoading(false); onLogin(); } *)

(** The calls a handler makes that are visible outside it. *)
Inductive call :=
| SetIsLoading (b : bool)
| OnLogin
| Alert_alert (title message : string).

#[export] Instance call_eq_dec : EqDecision call.
Proof. solve_decision. Defined.

Record state := State {
  email : string;
  password : string;
  isLoading : bool
}.

(** [useState('')], [useState('')], [useState(false)] *)
Definition state_init : state :=
  {| email := ""; password := ""; isLoading := false |}.

Record world := World {
  st : state;
  timers : Timers.queue callback;
  trace : list (N * call)
}.

Definition set_timers (q : Timers.queue callback) (w : world) : world :=
  {| st := st w; timers := q; trace := trace w |}.

Definition emit (c : call) (w : world) : world :=
  {| st := st w; timers := timers w;
     trace := trace w ++ [(Timers.now (timers w), c)] |}.

Definition setEmail (s : string) (w : world) : world :=
  {| st := {| email := s; password := password (st w);
              isLoading := isLoading (st w) |};
     timers := timers w; trace := trace w |}.

Definition setPassword (s : string) (w : world) : world :=
  {| st := {| email := email (st w); password := s;
              isLoading := isLoading (st w) |};
     timers := timers w; trace := trace w |}.

Definition setIsLoading (b : bool) (w : world) : world :=
  emit (SetIsLoading b)
    {| st := {| email := email (st w); password := password (st w);
                isLoading := b |};
       timers := timers w; trace := trace w |}.

Definition onLogin (w : world) : world := emit OnLogin w.

Definition setTimeout (cb : callback) (delay : N) (w : world) : world :=
  set_timers (Timers.setTimeout cb delay (timers w)).2 w.

(** [handleGoogleLogin] *)
Definition handleGoogleLogin (w : world) : world :=
  setTimeout GoogleLoginDone 1500 (setIsLoading true w).

(** [handleEmailLogin] *)
Definition handleEmailLogin (w : world) : world :=
  if bool_decide (email (st w) = "testuser@example.com")
     && bool_decide (password (st w) = "Test@1234")
  then setTimeout EmailLoginDone 1000 (setIsLoading true w)
  else emit (Alert_alert "Error"
         "Invalid credentials. Use testuser@example.com and Test@1234") w.

Definition dispatch (cb : callback) (w : world) : world :=
  match cb with
  | GoogleLoginDone => onLogin (setIsLoading false w)
  | EmailLoginDone => onLogin (setIsLoading false w)
  end.

Definition run : nat → world → world :=
  Timers.run timers set_timers dispatch.

(** What a run from world [w] to world [w'] added to the trace: the
    calls made since [w], with their times. *)
Definition since (w w' : world) : list (N * call) :=
  drop (length (trace w)) (trace w').

(** The same calls without their times. *)
Definition calls_since (w w' : world) : list call := (since w w').*2.


(** The screen as first rendered, at time [t0]. *)
Definition world_init (t0 : N) : world :=
  {| st := state_init;
     timers := {| Timers.now := t0; Timers.next_id := 1;
                  Timers.pending := [] |};
     trace := [] |}.

(** What can happen to the screen: text typed in a field, a press on
    one of the two buttons, a timer firing.  Both buttons carry
    [disabled={isLoading}], so a press while loading does nothing. *)
Inductive event :=
| ChangeEmail (s : string)
| ChangePassword (s : string)
| PressSignIn
| PressGoogle
| TimerFires.

Definition handle (w : world) (ev : event) : world :=
  match ev with
  | ChangeEmail s => setEmail s w
  | ChangePassword s => setPassword s w
  | PressSignIn => if isLoading (st w) then w else handleEmailLogin w
  | PressGoogle => if isLoading (st w) then w else handleGoogleLogin w
  | TimerFires =>
      match Timers.tick timers set_timers dispatch w with
      | Some w' => w'
      | None => w
      end
  end.

Definition handle_all (w : world) (evs : list event) : world :=
  foldl handle w evs.

(** How often a call occurs in a trace. *)
Definition count_call (c : call) (l : list (N * call)) : nat :=
  length (filter (λ tc, tc.2 = c) l).

(** The shape of every world the screen can reach: no login running
    and no timer, or one running with its one timeout; and the calls
    counted so far. *)
Definition login_shape (w : world) : Prop :=
  ((isLoading (st w) = false ∧ Timers.pending (timers w) = [])
   ∨ (isLoading (st w) = true
      ∧ ∃ t, Timers.pending (timers w) = [t] ∧ Timers.period t = None))
  ∧ (count_call OnLogin (trace w) + (if isLoading (st w) then 1 else 0)
     = count_call (SetIsLoading true) (trace w))%nat
  ∧ count_call (SetIsLoading false) (trace w) = count_call OnLogin (trace w).

End LoginScreen.

(* ===================================================================== *)
(** ** HomeScreen *)
(* ===================================================================== *)

Module HomeScreen.

(** The text of the search field is kept as its UTF-16 code units, the
    form in which [String.prototype.trim] sees it. *)
Definition code_units (s : string) : list N :=
  Ascii.N_of_ascii <$> String.list_ascii_of_string s.

(** White space and line terminators, the code units [trim] strips. *)
Definition is_white_space (c : N) : bool :=
  ((c =? 0x9) || (c =? 0xA) || (c =? 0xB) || (c =? 0xC) || (c =? 0xD)
   || (c =? 0x20) || (c =? 0xA0) || (c =? 0x1680)
   || ((0x2000 <=? c) && (c <=? 0x200A))
   || (c =? 0x2028) || (c =? 0x2029) || (c =? 0x202F) || (c =? 0x205F)
   || (c =? 0x3000) || (c =? 0xFEFF))%N.

Fixpoint trimStart (s : list N) : list N :=
  match s with
  | c :: s' => if is_white_space c then trimStart s' else s
  | [] => []
  end.

Definition trim (s : list N) : list N :=
  reverse (trimStart (reverse (trimStart s))).

(** A string used as a condition is true when it is not empty. *)
Definition truthy (s : list N) : bool :=
  match s with [] => false | _ :: _ => true end.

Definition progressMessages : list string := [
  "Fetching data...";
  "Understanding context...";
  "Analyzing traffic patterns...";
  "Optimizing route...";
  "Calculating environmental factors...";
  "Finalizing recommendations..."
].

(** The variables one call of [handleSearch] declares and its interval
    callback captures. *)
Record env := Env {
  messageIndex : nat;
  progressInterval : nat
}.

Inductive callback :=
| ProgressTick (e : nat)   (* the arrow function given to setInterval,
                              closed over the environment at index e *)
| SearchDone               (* the arrow function given to setTimeout in
                              handleSearch *)
| VoiceDone.               (* the arrow function given to setTimeout in
                              handleVoiceInput *)

(** The state setters called; [None] is the value [undefined]. *)
Inductive call :=
| SetIsSearching (b : bool)
| SetShowResults (b : bool)
| SetProgressMessage (m : option string)
| SetIsListening (b : bool)
| SetSearchQuery (s : list N).

#[export] Instance call_eq_dec : EqDecision call.
Proof. solve_decision. Defined.

Record state := State {
  searchQuery : list N;
  isSearching : bool;
  progressMessage : option string;
  showResults : bool;
  isListening : bool
}.

Definition state_init : state :=
  {| searchQuery := []; isSearching := false; progressMessage := Some "";
     showResults := false; isListening := false |}.

Record world := World {
  st : state;
  envs : list env;
  timers : Timers.queue callback;
  trace : list (N * call)
}.

Definition set_timers (q : Timers.queue callback) (w : world) : world :=
  {| st := st w; envs := envs w; timers := q; trace := trace w |}.

Definition set_envs (l : list env) (w : world) : world :=
  {| st := st w; envs := l; timers := timers w; trace := trace w |}.

Definition update (c : call) (s : state) (w : world) : world :=
  {| st := s; envs := envs w; timers := timers w;
     trace := trace w ++ [(Timers.now (timers w), c)] |}.

Definition setSearchQuery (q : list N) (w : world) : world :=
  update (SetSearchQuery q)
    {| searchQuery := q; isSearching := isSearching (st w);
       progressMessage := progressMessage (st w);
       showResults := showResults (st w);
       isListening := isListening (st w) |} w.

Definition setIsSearching (b : bool) (w : world) : world :=
  update (SetIsSearching b)
    {| searchQuery := searchQuery (st w); isSearching := b;
       progressMessage := progressMessage (st w);
       showResults := showResults (st w);
       isListening := isListening (st w) |} w.

Definition setProgressMessage (m : option string) (w : world) : world :=
  update (SetProgressMessage m)
    {| searchQuery := searchQuery (st w);
       isSearching := isSearching (st w);
       progressMessage := m;
       showResults := showResults (st w);
       isListening := isListening (st w) |} w.

Definition setShowResults (b : bool) (w : world) : world :=
  update (SetShowResults b)
    {| searchQuery := searchQuery (st w);
       isSearching := isSearching (st w);
       progressMessage := progressMessage (st w);
       showResults := b;
       isListening := isListening (st w) |} w.

Definition setIsListening (b : bool) (w : world) : world :=
  update (SetIsListening b)
    {| searchQuery := searchQuery (st w);
       isSearching := isSearching (st w);
       progressMessage := progressMessage (st w);
       showResults := showResults (st w);
       isListening := b |} w.

Definition setTimeout (cb : callback) (delay : N) (w : world) : world :=
  set_timers (Timers.setTimeout cb delay (timers w)).2 w.

Definition clearInterval (i : nat) (w : world) : world :=
  set_timers (Timers.clearInterval i (timers w)) w.

(** [handleSearch] : the work is done only for a query that is not
    empty once trimmed.  The call declares [messageIndex = 0] and
    [progressInterval], the id [setInterval] returns. *)
Definition handleSearch (w : world) : world :=
  if truthy (trim (searchQuery (st w))) then
    let w1 := setShowResults false (setIsSearching true w) in
    let e := length (envs w1) in
    let '(i, q) := Timers.setInterval (ProgressTick e) 1500 (timers w1) in
    set_envs (envs w1 ++ [{| messageIndex := 0; progressInterval := i |}])
      (set_timers q w1)
  else w.

(** The body of the interval callback of [handleSearch]. *)
Definition progressTick (e : nat) (w : world) : world :=
  match envs w !! e with
  | None => w
  | Some v =>
      let w1 := setProgressMessage (progressMessages !! messageIndex v) w in
      let v' := {| messageIndex := S (messageIndex v);
                   progressInterval := progressInterval v |} in
      let w2 := set_envs (<[e := v']> (envs w1)) w1 in
      if bool_decide (length progressMessages ≤ messageIndex v')%nat then
        setTimeout SearchDone 1000 (clearInterval (progressInterval v') w2)
      else w2
  end.

(** [handleVoiceInput] *)
Definition handleVoiceInput (w : world) : world :=
  setTimeout VoiceDone 2000 (setIsListening true w).

Definition dispatch (cb : callback) (w : world) : world :=
  match cb with
  | ProgressTick e => progressTick e w
  | SearchDone => setShowResults true (setIsSearching false w)
  | VoiceDone =>
      setIsListening false
        (setSearchQuery
           (code_units "I want to go from Delhi to Mandi having greenery")
           w)
  end.

Definition run : nat → world → world :=
  Timers.run timers set_timers dispatch.

(** What a run from world [w] to world [w'] added to the trace: the
    calls made since [w], with their times. *)
Definition since (w w' : world) : list (N * call) :=
  drop (length (trace w)) (trace w').

(** The values written to [progressMessage] in a trace, in order, each
    with the time of the write. *)
Definition messages_shown (l : list (N * call))
  : list (N * option string) :=
  omap (λ tc, match tc.2 with
              | SetProgressMessage m => Some (tc.1, m)
              | _ => None
              end) l.

(** [renderProgressOverlay] : nothing ([None]) while no search is on,
    otherwise the overlay, whose text is [progressMessage]. *)
Definition renderProgressOverlay (s : state) : option (option string) :=
  if negb (isSearching s) then None else Some (progressMessage s).


(** *** The worlds a search goes through

    The writes of the first [k] progress messages of a search started at
    time [t]: message [j] (from 0) is written at [t + 1500 * (j + 1)]. *)
Definition shown (t : N) (k : nat) : list (N * call) :=
  imap (λ j m, ((t + 1500 * N.of_nat (S j))%N, SetProgressMessage (Some m)))
       (take k progressMessages).

(** The world [k] ticks after [handleSearch] was called in [w] (for [k]
    up to 5): the search flags are set, the interval is pending and its
    environment holds [messageIndex = k]. *)
Definition searching (w : world) (k : nat) : world :=
  let t := Timers.now (timers w) in
  let i := Timers.next_id (timers w) in
  {| st := {| searchQuery := searchQuery (st w);
              isSearching := true;
              progressMessage :=
                match k with
                | O => progressMessage (st w)
                | S k' => progressMessages !! k'
                end;
              showResults := false;
              isListening := isListening (st w) |};
     envs := envs w ++ [{| messageIndex := k; progressInterval := i |}];
     timers :=
       {| Timers.now := (t + 1500 * N.of_nat k)%N;
          Timers.next_id := S i;
          Timers.pending :=
            [Timers.Timer i (t + 1500 * N.of_nat (S k))%N (Some 1500%N)
               (ProgressTick (length (envs w)))] |};
     trace := trace w ++ [(t, SetIsSearching true); (t, SetShowResults false)]
                     ++ shown t k |}.

(** The world after the sixth tick: the interval is cleared and the
    timeout of one second is pending. *)
Definition waiting (w : world) : world :=
  let t := Timers.now (timers w) in
  let i := Timers.next_id (timers w) in
  {| st := {| searchQuery := searchQuery (st w);
              isSearching := true;
              progressMessage := progressMessages !! 5%nat;
              showResults := false;
              isListening := isListening (st w) |};
     envs := envs w ++ [{| messageIndex := 6; progressInterval := i |}];
     timers :=
       {| Timers.now := (t + 9000)%N;
          Timers.next_id := S (S i);
          Timers.pending :=
            [Timers.Timer (S i) (t + 9000 + 1000)%N None SearchDone] |};
     trace := trace w ++ [(t, SetIsSearching true); (t, SetShowResults false)]
                     ++ shown t 6 |}.

(** The world after the timeout: the results are shown, nothing is
    pending. *)
Definition finished (w : world) : world :=
  let t := Timers.now (timers w) in
  let i := Timers.next_id (timers w) in
  {| st := {| searchQuery := searchQuery (st w);
              isSearching := false;
              progressMessage := progressMessages !! 5%nat;
              showResults := true;
              isListening := isListening (st w) |};
     envs := envs w ++ [{| messageIndex := 6; progressInterval := i |}];
     timers :=
       {| Timers.now := (t + 9000 + 1000)%N;
          Timers.next_id := S (S i);
          Timers.pending := [] |};
     trace := trace w ++ [(t, SetIsSearching true); (t, SetShowResults false)]
                     ++ shown t 6
                     ++ [((t + 9000 + 1000)%N, SetIsSearching false);
                         ((t + 9000 + 1000)%N, SetShowResults true)] |}.

(** A fresh screen: initial state, nothing scheduled, nothing logged. *)
Definition world_init (t0 : N) : world :=
  {| st := state_init; envs := [];
     timers := {| Timers.now := t0; Timers.next_id := 1;
                  Timers.pending := [] |};
     trace := [] |}.


(** *** The screen under the events of its user

    Text typed in the field, the search button (which carries
    [disabled={isSearching}]), the keyboard's submit key
    ([onSubmitEditing={handleSearch}], not disabled), the voice button
    ([disabled={isListening}]), and a timer firing. *)
Inductive event :=
| ChangeText (s : list N)
| PressSearch
| SubmitEditing
| PressVoice
| TimerFires.

#[export] Instance event_eq_dec : EqDecision event.
Proof. solve_decision. Defined.

#[export] Instance callback_eq_dec : EqDecision callback.
Proof. solve_decision. Defined.

Definition handle (w : world) (ev : event) : world :=
  match ev with
  | ChangeText s => setSearchQuery s w
  | PressSearch => if isSearching (st w) then w else handleSearch w
  | SubmitEditing => handleSearch w
  | PressVoice => if isListening (st w) then w else handleVoiceInput w
  | TimerFires =>
      match Timers.tick timers set_timers dispatch w with
      | Some w' => w'
      | None => w
      end
  end.

Definition handle_all (w : world) (evs : list event) : world :=
  foldl handle w evs.

(** How often a call occurs in a trace. *)
Definition count_call (c : call) (l : list (N * call)) : nat :=
  length (filter (λ tc, tc.2 = c) l).

(** The pending timers of a search (its interval or its timeout) and
    those of the voice button. *)
Definition search_timers (l : list (Timers.timer callback))
  : list (Timers.timer callback) :=
  filter (λ t, Timers.action t ≠ VoiceDone) l.

Definition voice_timers (l : list (Timers.timer callback))
  : list (Timers.timer callback) :=
  filter (λ t, Timers.action t = VoiceDone) l.

(** The timers of a search when at most one search is on: none and the
    flag cleared; or, the flag set, the one timeout, or the one interval
    together with its environment, in which fewer than six messages have
    been counted. *)
Definition search_part (w : world) (s : list (Timers.timer callback)) : Prop :=
  match s with
  | [] => isSearching (st w) = false
  | [t] =>
      isSearching (st w) = true
      ∧ (Timers.timer_id t < Timers.next_id (timers w))%nat
      ∧ ((Timers.action t = SearchDone ∧ Timers.period t = None)
         ∨ ∃ e k, Timers.action t = ProgressTick e
                  ∧ Timers.period t = Some 1500%N
                  ∧ envs w !! e
                    = Some {| messageIndex := k;
                              progressInterval := Timers.timer_id t |}
                  ∧ (k < 6)%nat)
  | _ => False
  end.

Definition voice_part (w : world) (v : list (Timers.timer callback)) : Prop :=
  match v with
  | [] => isListening (st w) = false
  | [t] =>
      isListening (st w) = true
      ∧ (Timers.timer_id t < Timers.next_id (timers w))%nat
      ∧ Timers.action t = VoiceDone ∧ Timers.period t = None
  | _ => False
  end.

(** The shape of every world reached without the submit key. *)
Definition home_shape (w : world) : Prop :=
  ∃ s v : list (Timers.timer callback),
    (Timers.pending (timers w) = (s ++ v)%list
     ∨ Timers.pending (timers w) = (v ++ s)%list)
    ∧ search_part w s ∧ voice_part w v
    ∧ (∀ ts tv, ts ∈ s → tv ∈ v → Timers.timer_id ts ≠ Timers.timer_id tv)
    ∧ (count_call (SetShowResults true) (trace w)
       + (if isSearching (st w) then 1 else 0)
       = count_call (SetIsSearching true) (trace w))%nat
    ∧ Forall (λ tc, ∀ m, tc.2 = SetProgressMessage m →
                         m ∈ Some <$> progressMessages) (trace w).

End HomeScreen.

(* ===================================================================== *)
(** ** MapSection *)
(* ===================================================================== *)

Module MapSection.

(** *** Numbers written in the source

    The four coordinates are decimal literals.  A literal is kept as
    [mantissa / 10^scale]; [Number_toString] prints it the way a
    template literal does for such a number: the decimal expansion with
    trailing zeros of the fraction dropped.  The two sums halved in
    [generateMapHTML] are computed exactly; on these four constants the
    double-precision results print as the same digits (30.1736 and
    77.07115). *)
Record decimal := Decimal { mantissa : N; scale : nat }.

Definition dec_add (a b : decimal) : decimal :=
  let s := scale a `max` scale b in
  {| mantissa := (mantissa a * 10 ^ N.of_nat (s - scale a)
                  + mantissa b * 10 ^ N.of_nat (s - scale b))%N;
     scale := s |}.

Definition dec_half (a : decimal) : decimal :=
  {| mantissa := (mantissa a * 5)%N; scale := S (scale a) |}.

Fixpoint strip_zeros (m : N) (s : nat) : decimal :=
  match s with
  | O => {| mantissa := m; scale := O |}
  | S s' =>
      if (m mod 10 =? 0)%N then strip_zeros (m / 10)%N s'
      else {| mantissa := m; scale := s |}
  end.

Fixpoint pad_left (n : nat) (s : string) : string :=
  match n with
  | O => s
  | S n' => if bool_decide (String.length s < n)%nat
            then pad_left n' ("0" +:+ s) else s
  end.

Definition Number_toString (d : decimal) : string :=
  let d' := strip_zeros (mantissa d) (scale d) in
  let p := (10 ^ N.of_nat (scale d'))%N in
  match scale d' with
  | O => pretty (mantissa d')
  | S _ =>
      pretty (mantissa d' / p)%N +:+ "." +:+
      pad_left (scale d') (pretty (mantissa d' mod p)%N)
  end.

Record place := Place { latitude : decimal; longitude : decimal }.

(** [const Delhi = { latitude: 28.6139, longitude: 77.2090 }] *)
Definition Delhi : place :=
  {| latitude := Decimal 286139 4; longitude := Decimal 772090 4 |}.

(** [const Mandi = { latitude: 31.7333, longitude: 76.9333 }] *)
Definition Mandi : place :=
  {| latitude := Decimal 317333 4; longitude := Decimal 769333 4 |}.

(** The URL given to [axios.get]. *)
Definition route_url : string :=
  "https://router.project-osrm.org/route/v1/driving/"
  +:+ Number_toString (longitude Delhi) +:+ ","
  +:+ Number_toString (latitude Delhi) +:+ ";"
  +:+ Number_toString (longitude Mandi) +:+ ","
  +:+ Number_toString (latitude Mandi) +:+ "?geometries=geojson".

(** The double quote character of the HTML text. *)
Definition dq : string := String "034"%char "".

(** *** The literal pieces of the template in [generateMapHTML] *)

Definition html_open : string :=
    "
      <!DOCTYPE html>
      <html>
      <head>
        <meta name=" +:+ dq +:+
    "viewport" +:+ dq +:+
    " content=" +:+ dq +:+
    "width=device-width, initial-scale=1.0, maximum-scale=1.0, user-scalable=no" +:+ dq +:+
    " />
        <link rel=" +:+ dq +:+
    "stylesheet" +:+ dq +:+
    " href=" +:+ dq +:+
    "https://unpkg.com/leaflet@1.9.4/dist/leaflet.css" +:+ dq +:+
    " />
        <script src=" +:+ dq +:+
    "https://unpkg.com/leaflet@1.9.4/dist/leaflet.js" +:+ dq +:+
    "></script>
        <style>
          body { margin: 0; padding: 0; }
          #map { width: 100%; height: 100vh; }
        </style>
      </head>
      <body>
        <div id=" +:+ dq +:+
    "map" +:+ dq +:+
    "></div>
        <script>
          var map = L.map('map').setView([".

Definition html_tiles : string :=
    "], 7);
          
          L.tileLayer('https://{s}.tile.openstreetmap.org/{z}/{x}/{y}.png', {
            attribution: '&copy; OpenStreetMap contributors',
            maxZoom: 19
          }).addTo(map);
          
          var delhiMarker = L.marker([".

Definition html_delhi_popup : string :=
    "]).addTo(map);
          delhiMarker.bindPopup('<b>Delhi</b>').openPopup();
          
          var mandiMarker = L.marker([".

Definition html_mandi_popup : string :=
    "]).addTo(map);
          mandiMarker.bindPopup('<b>Mandi</b>');
          
          ".

Definition html_gap : string :=
    "
          
          ".

Definition html_close : string :=
    "
        </script>
      </body>
      </html>
    ".

Definition polyline_decl_open : string :=
    "var routeCoords = ".

(** The remote resources the template names: the stylesheet and the
    script of Leaflet, which the web view fetches when it loads the
    HTML, and the address pattern of the map tiles Leaflet then
    fetches. *)
Definition leaflet_stylesheet : string :=
  "<link rel=" +:+ dq +:+ "stylesheet" +:+ dq +:+ " href=" +:+ dq +:+
  "https://unpkg.com/leaflet@1.9.4/dist/leaflet.css" +:+ dq +:+ " />".

Definition leaflet_script : string :=
  "<script src=" +:+ dq +:+
  "https://unpkg.com/leaflet@1.9.4/dist/leaflet.js" +:+ dq +:+
  "></script>".

Definition tile_url : string :=
  "https://{s}.tile.openstreetmap.org/{z}/{x}/{y}.png".

Definition polyline_decl_close : string :=
    ";
         var polyline = L.polyline(routeCoords, {color: '#2E7D32', weight: 4}).addTo(map);".

(** *** Numbers received from the routing service

    The coordinates of the response are numbers of the host; the
    development is parametric in them and in the text [JSON.stringify]
    gives a number. *)
Section response.
Context {number : Type}.
Variable JSON_stringify_number : number → string.

(** A position of the geometry: an array of numbers. *)
Definition position := list number.

(** An element of the array given to [JSON.stringify]; an element
    that is [undefined] is written null. *)
Definition JSON_stringify_element (x : option number) : string :=
  match x with
  | Some n => JSON_stringify_number n
  | None => "null"
  end.

Fixpoint join (sep : string) (l : list string) : string :=
  match l with
  | [] => ""
  | [x] => x
  | x :: l' => x +:+ sep +:+ join sep l'
  end.

Definition JSON_stringify_array (l : list string) : string :=
  "[" +:+ join "," l +:+ "]".

(** [JSON.stringify(routeCoords.map(c => [c[1], c[0]]))] *)
Definition JSON_stringify_swapped (routeCoords : list position)
  : string :=
  JSON_stringify_array
    ((λ c, JSON_stringify_array
             [JSON_stringify_element (c !! 1%nat);
              JSON_stringify_element (c !! 0%nat)]) <$> routeCoords).

(** [generateMapHTML] *)
Definition generateMapHTML (routeCoords : list position) : string :=
  let routePolyline :=
    if bool_decide (0 < length routeCoords)%nat
    then polyline_decl_open +:+ JSON_stringify_swapped routeCoords
         +:+ polyline_decl_close
    else "" in
  html_open
  +:+ Number_toString
        (dec_half (dec_add (latitude Delhi) (latitude Mandi)))
  +:+ ", "
  +:+ Number_toString
        (dec_half (dec_add (longitude Delhi) (longitude Mandi)))
  +:+ html_tiles
  +:+ Number_toString (latitude Delhi) +:+ ", "
  +:+ Number_toString (longitude Delhi)
  +:+ html_delhi_popup
  +:+ Number_toString (latitude Mandi) +:+ ", "
  +:+ Number_toString (longitude Mandi)
  +:+ html_mandi_popup
  +:+ routePolyline
  +:+ html_gap
  +:+ (if bool_decide (0 < length routeCoords)%nat
       then "map.fitBounds(polyline.getBounds(), {padding: [50, 50]});"
       else "")
  +:+ html_close.

(** [response.data.routes] as far as [fetchRoute] reads it: each
    route with the coordinates of its geometry. *)
Record route := Route { geometry_coordinates : list position }.

(** How the promise of [axios.get] settles. *)
Inductive settlement :=
| Rejected (reason : string)
| Fulfilled (routes : list route).

(** The settlements after which [fetchRoute] runs its [catch] block:
    the request was rejected, or the response has no first route. *)
Definition failed (r : settlement) : bool :=
  match r with
  | Rejected _ => true
  | Fulfilled [] => true
  | Fulfilled (_ :: _) => false
  end.

(** The value caught by [catch (error)]. *)
Inductive error :=
| RequestError (reason : string)   (* the rejection of axios.get *)
| TypeError.                       (* routes[0] is undefined *)

Inductive call :=
| HttpGet (url : string)
| ConsoleError (label : string) (e : error)
| SetRouteCoordinates (coords : list position)
| SetMapHTML (html : string).

Record state := State {
  routeCoordinates : list position;
  mapHTML : string
}.

(** The mounted component: the prop of its last render, its state,
    the requests that have not settled yet and the calls made. *)
Record component := Component {
  showResults : bool;
  st : state;
  in_flight : nat;
  trace : list call
}.

Definition emit (c : call) (m : component) : component :=
  {| showResults := showResults m; st := st m;
     in_flight := in_flight m; trace := trace m ++ [c] |}.

Definition setRouteCoordinates (coords : list position) (m : component)
  : component :=
  emit (SetRouteCoordinates coords)
    {| showResults := showResults m;
       st := {| routeCoordinates := coords; mapHTML := mapHTML (st m) |};
       in_flight := in_flight m; trace := trace m |}.

Definition setMapHTML (html : string) (m : component) : component :=
  emit (SetMapHTML html)
    {| showResults := showResults m;
       st := {| routeCoordinates := routeCoordinates (st m);
                mapHTML := html |};
       in_flight := in_flight m; trace := trace m |}.

(** [fetchRoute] up to its [await]: the request leaves. *)
Definition fetchRoute (m : component) : component :=
  emit (HttpGet route_url)
    {| showResults := showResults m; st := st m;
       in_flight := S (in_flight m); trace := trace m |}.

(** The [catch] block of [fetchRoute]. *)
Definition fetchRoute_catch (e : error) (m : component) : component :=
  setMapHTML (generateMapHTML [])
    (emit (ConsoleError "Error fetching route:" e) m).

(** [fetchRoute] after its [await], once the promise has settled. *)
Definition fetchRoute_resume (r : settlement) (m : component)
  : component :=
  match r with
  | Rejected reason => fetchRoute_catch (RequestError reason) m
  | Fulfilled [] => fetchRoute_catch TypeError m
  | Fulfilled (r0 :: _) =>
      let coords := geometry_coordinates r0 in
      setMapHTML (generateMapHTML coords) (setRouteCoordinates coords m)
  end.

(** The function given to [useEffect]. *)
Definition effect (m : component) : component :=
  if negb (showResults m) then m else fetchRoute m.

(** First render with prop [p]; the effect runs after it. *)
Definition mount (p : bool) : component :=
  effect {| showResults := p;
            st := {| routeCoordinates := []; mapHTML := "" |};
            in_flight := 0; trace := [] |}.

(** A later render with prop [p]: the effect runs again only when the
    dependency [showResults] differs from that of the last render. *)
Definition rerender (p : bool) (m : component) : component :=
  let m' := {| showResults := p; st := st m;
               in_flight := in_flight m; trace := trace m |} in
  if bool_decide (showResults m = p) then m' else effect m'.

(** What happens to the mounted component: its parent renders it with
    a prop, or a request in flight settles (the rest of [fetchRoute]
    runs, and the state it sets renders the component again). *)
Inductive event :=
| Render (p : bool)
| Settled (r : settlement).

Definition step (m : component) (ev : event) : component :=
  match ev with
  | Render p => rerender p m
  | Settled r =>
      match in_flight m with
      | O => m
      | S n =>
          rerender (showResults m)
            (fetchRoute_resume r
               {| showResults := showResults m; st := st m;
                  in_flight := n; trace := trace m |})
      end
  end.

Definition steps (m : component) (evs : list event) : component :=
  foldl step m evs.

(** What the component returns from its render. *)
Inductive view :=
| Null
| WebView (html : string)
| Placeholder.

Definition render (m : component) : view :=
  if negb (showResults m) then Null
  else if bool_decide (mapHTML (st m) = "") then Placeholder
  else WebView (mapHTML (st m)).

(** Whether a trace holds a call of [setMapHTML]: whether the rest of
    [fetchRoute] has run at least once. *)
Definition has_setMapHTML (l : list call) : bool :=
  existsb (λ c, match c with SetMapHTML _ => true | _ => false end) l.

(** The requests of a trace. *)
Definition requests (l : list call) : list string :=
  omap (λ c, match c with HttpGet u => Some u | _ => None end) l.

End response.

(** The renders of an event list that take the prop from false to
    true, [p] being the prop before the first event. *)
Fixpoint rising_edges {number : Type} (p : bool)
    (evs : list (@event number)) : nat :=
  match evs with
  | [] => 0
  | Render p' :: evs' =>
      (if negb p && p' then 1 else 0) + rising_edges p' evs'
  | Settled _ :: evs' => rising_edges p evs'
  end.

(** [haystack.includes(needle)] *)
Fixpoint includes (needle haystack : string) : bool :=
  String.prefix needle haystack
  || match haystack with
     | EmptyString => false
     | String _ h => includes needle h
     end.

End MapSection.

(* ===================================================================== *)
(** ** App *)
(* ===================================================================== *)

Module App.

(** The functions [App] creates that reach [setIsLoggedIn]: the arrow
    function [() => setIsLoggedIn(true)] given to [LoginScreen] as its
    [onLogin] prop is the only one. *)
Inductive callback :=
| OnLogin.

(** The child of [Stack.Navigator]. *)
Inductive screen :=
| Login (onLogin : callback)  (* <Stack.Screen name="Login"> around
                                 <LoginScreen onLogin={...} /> *)
| Main.                       (* <Stack.Screen name="Main"
                                 component={MainTabs} /> *)

(** [useState(false)] *)
Definition isLoggedIn_init : bool := false.

(** The body of [App] for a value of [isLoggedIn]. *)
Definition render (isLoggedIn : bool) : screen :=
  if negb isLoggedIn then Login OnLogin else Main.

(** The callbacks a rendered screen has been given. *)
Definition callbacks (s : screen) : list callback :=
  match s with
  | Login cb => [cb]
  | Main => []
  end.

(** Running a callback on the flag. *)
Definition invoke (isLoggedIn : bool) (cb : callback) : bool :=
  match cb with
  | OnLogin => true
  end.

Definition invoke_all (isLoggedIn : bool) (cbs : list callback) : bool :=
  foldl invoke isLoggedIn cbs.

(** [tabBarIcon] of [MainTabs]: the icon name for a route name;
    [None] is [undefined]. *)
Definition iconName (route_name : string) : option string :=
  if decide (route_name = "Home") then Some "home"
  else if decide (route_name = "Profile") then Some "person"
  else if decide (route_name = "Settings") then Some "settings"
  else if decide (route_name = "News") then Some "article"
  else None.


(** The [name] of the four [Tab.Screen] children of [MainTabs], in
    order. *)
Definition tabs : list string := ["Home"; "Profile"; "Settings"; "News"].

(** The flag after [LoginScreen] has made the calls [cs]: its [onLogin]
    prop is the callback [App] gave it, every other call stays inside
    the screen. *)
Definition after_login_calls (isLoggedIn : bool)
    (cs : list LoginScreen.call) : bool :=
  foldl (λ b c, match c with
                | LoginScreen.OnLogin => invoke b OnLogin
                | _ => b
                end) isLoggedIn cs.

End App.

(* ===================================================================== *)
(** ** The numeric solver (C++) *)
(* ===================================================================== *)

Module Solver.

Open Scope Z_scope.

Definition MAX : Z := 200000.
Definition INT_MAX : Z := 2147483647.

(** [std::__gcd(m, n)] : [while (n != 0) { t = m % n; m = n; n = t; }
    return m;] with the truncating remainder of C++.  The absolute
    value of [n] decreases at each turn, which bounds the loop. *)
Fixpoint gcd_loop (fuel : nat) (m n : Z) : Z :=
  match fuel with
  | O => m
  | S fuel' => if n =? 0 then m else gcd_loop fuel' n (Z.rem m n)
  end.

Definition __gcd (m n : Z) : Z := gcd_loop (S (Z.abs_nat n)) m n.

(** [for (j = i+1; j < n && !ok; j++) if (__gcd(a[i], a[j]) > 1)
    ok = true;] over the elements after position [i]. *)
Fixpoint scan_j (ai : Z) (rest : list Z) (ok : bool) : bool :=
  match rest with
  | [] => ok
  | aj :: rest' =>
      if ok then ok
      else scan_j ai rest' (if 1 <? __gcd ai aj then true else ok)
  end.

(** [for (i = 0; i < n && !ok; i++) ...] *)
Fixpoint scan_i (a : list Z) (ok : bool) : bool :=
  match a with
  | [] => ok
  | ai :: rest => if ok then ok else scan_i rest (scan_j ai rest ok)
  end.

(** [f[x]] for the table [vector<int> f(MAX+2, 0)] kept as a finite
    map: an index never written reads 0. *)
Definition at_ (f : gmap Z nat) (x : Z) : nat := default 0%nat (f !! x).

(** [for (int x : a) f[x]++;] : an index outside the table has no
    defined behaviour, which is [None]. *)
Definition tally (a : list Z) : option (gmap Z nat) :=
  foldl (λ acc x,
           f ← acc;
           if bool_decide (0 ≤ x < MAX + 2)
           then Some (<[x := S (at_ f x)]> f) else None)
        (Some ∅) a.

(** The body of [for (m = p; m <= MAX; m += p)] : what is pushed on
    [c] for the multiple [m]. *)
Definition pushed (f : gmap Z nat) (m : Z) : list Z :=
  if bool_decide (at_ f m ≠ 0%nat) then replicate (at_ f m) 0
  else if (0 <? m - 1) && bool_decide (at_ f (m - 1) ≠ 0%nat)
  then replicate (at_ f (m - 1)) 1
  else if (0 <? m - 2) && bool_decide (at_ f (m - 2) ≠ 0%nat)
  then replicate (at_ f (m - 2)) 2
  else [].

(** The vector [c] built for [p], with multiples up to [bound]. *)
Definition costs (bound : Z) (f : gmap Z nat) (p : Z) : list Z :=
  mjoin ((λ k, pushed f (p * k)) <$> seqZ 1 (bound / p)).

(** The body of [for (p = 2; p <= MAX; p++)]. *)
Definition per_prime (bound : Z) (f : gmap Z nat) (ans p : Z) : Z :=
  let c := costs bound f p in
  if bool_decide (2 ≤ length c)%nat then
    match merge_sort Z.le c with
    | c0 :: c1 :: _ => Z.min ans (c0 + c1)
    | _ => ans
    end
  else ans.

Definition minimise (bound : Z) (f : gmap Z nat) : Z :=
  foldl (per_prime bound f) INT_MAX (seqZ 2 (bound - 1)).

(** Which way one turn of [while (t--)] went. *)
Inductive path :=
| Shortcut      (* if (ok) { cout << 0; continue; } *)
| Minimised.    (* the per-prime loop ran *)

(** One test case: the array [a], and the [n] further numbers that are
    read and dropped. *)
Record test := Test { a : list Z; dropped : list Z }.

(** One turn of the loop of [main]: the path taken and the line
    printed ([None] where the behaviour is not defined). *)
Definition test_case (t : test) : path * option Z :=
  if scan_i (a t) false then (Shortcut, Some 0)
  else (Minimised, minimise MAX <$> tally (a t)).


(** The number of positions of [l] holding [x]. *)
Definition occurrences (x : Z) (l : list Z) : nat :=
  length (filter (λ y, y = x) l).

End Solver.

(* ===================================================================== *)
(** ** HomeScreen renders MapSection *)
(* ===================================================================== *)

Module HomeWithMap.

(** [<MapSection showResults={showResults} />] : every state setter
    called in [HomeScreen] renders the screen again, and with it
    [MapSection], with the value [showResults] has after the call.
    [renders p cs] are the renders [MapSection] sees for the calls [cs],
    [p] being [showResults] before them. *)
Fixpoint renders {number : Type} (p : bool) (cs : list HomeScreen.call)
  : list (@MapSection.event number) :=
  match cs with
  | [] => []
  | c :: cs' =>
      let p' := match c with
                | HomeScreen.SetShowResults b => b
                | _ => p
                end in
      MapSection.Render p' :: renders p' cs'
  end.

(** The prop [MapSection] was last rendered with, after the calls [cs]. *)
Definition last_prop (p : bool) (cs : list HomeScreen.call) : bool :=
  foldl (λ p c, match c with
                | HomeScreen.SetShowResults b => b
                | _ => p
                end) p cs.

(** The renders among the renders of the calls [cs] that take the prop
    of [MapSection] from false to true, [p] being the prop before. *)
Definition edges (number : Type) (p : bool) (cs : list HomeScreen.call)
  : nat :=
  MapSection.rising_edges (number:=number) p (renders p cs).

(** What the renders of a world's calls have come to: [MapSection] holds
    the [showResults] of the screen, the results are hidden while a
    search is on, and every [setShowResults(true)] so far took the prop
    from false to true. *)
Definition requests_shape (number : Type) (w : HomeScreen.world) : Prop :=
  HomeScreen.showResults (HomeScreen.st w)
  = last_prop false (HomeScreen.trace w).*2
  ∧ (HomeScreen.isSearching (HomeScreen.st w) = true →
     HomeScreen.showResults (HomeScreen.st w) = false)
  ∧ edges number false (HomeScreen.trace w).*2
    = HomeScreen.count_call (HomeScreen.SetShowResults true)
        (HomeScreen.trace w).
End HomeWithMap.

(* ===================================================================== *)
(** * Properties *)
(* ===================================================================== *)

(** ** SettingsScreen : the toggle *)

Section settings_properties.
Import SettingsScreen.

Lemma settings_init_state : settings_state settings_init.
Proof.
  unfold settings_state. apply set_eq. intros k.
  rewrite elem_of_dom. unfold settings_init, setting_keys.
  rewrite elem_of_list_to_set. split.
  - intros [b Hb]. apply elem_of_list_to_map_2 in Hb.
    repeat (apply elem_of_cons in Hb as [Hb|Hb];
            [injection Hb as -> _; repeat constructor|]).
    by apply elem_of_nil in Hb.
  - intros Hk.
    repeat (apply elem_of_cons in Hk as [->|Hk]; [by eexists|]).
    by apply elem_of_nil in Hk.
Qed.

Lemma settings_state_lookup (s : gmap string bool) (k : string) :
  settings_state s → k ∈ setting_keys → is_Some (s !! k).
Proof.
  intros Hs Hk. apply elem_of_dom. rewrite Hs.
  by apply elem_of_list_to_set.
Qed.

Lemma handleToggle_at (s : gmap string bool) (k : string) (b : bool) :
  s !! k = Some b → handleToggle k s !! k = Some (negb b).
Proof.
  intros Hb. unfold handleToggle, not_prop, prop_truthy.
  by rewrite lookup_insert_eq, Hb.
Qed.

Lemma handleToggle_frame (s : gmap string bool) (k k' : string) :
  k' ≠ k → handleToggle k s !! k' = s !! k'.
Proof. intros Hne. unfold handleToggle. by rewrite lookup_insert_ne. Qed.

Lemma handleToggle_twice (s : gmap string bool) (k : string) (b : bool) :
  s !! k = Some b → handleToggle k (handleToggle k s) = s.
Proof.
  intros Hb. unfold handleToggle at 1. unfold not_prop, prop_truthy.
  rewrite (handleToggle_at s k b Hb). simpl. rewrite negb_involutive.
  unfold handleToggle. rewrite insert_insert_eq. by apply insert_id.
Qed.

(** A key that the object does not carry is created by the toggle, so
    the second toggle does not give the object back: the seven keys are
    needed for the involution. *)
Lemma handleToggle_absent_key :
  handleToggle "x" (handleToggle "x" ∅) ≠ (∅ : gmap string bool).
Proof.
  intros H. apply (f_equal (λ m : gmap string bool, m !! "x")) in H.
  unfold handleToggle in H. rewrite lookup_insert_eq, lookup_empty in H.
  discriminate.
Qed.

(** C9. For a settings object carrying the seven keys and a key [k]
    among them, [handleToggle k] stores at [k] the negation of the
    boolean that was there, leaves the value of every other key as it
    was, keeps the seven keys, and applied twice gives the settings
    object back. *)
Theorem handleToggle_negates_one_key
    (s : gmap string bool) (k : string) :
  settings_state s → k ∈ setting_keys →
  (∃ b, s !! k = Some b ∧ handleToggle k s !! k = Some (negb b))
  ∧ (∀ k', k' ≠ k → handleToggle k s !! k' = s !! k')
  ∧ settings_state (handleToggle k s)
  ∧ handleToggle k (handleToggle k s) = s.
Proof.
  intros Hs Hk.
  destruct (settings_state_lookup s k Hs Hk) as [b Hb].
  split; [|split; [|split]].
  - exists b. split; [done|]. by apply handleToggle_at.
  - intros k' Hne. by apply handleToggle_frame.
  - unfold settings_state, handleToggle in *.
    rewrite dom_insert_L, Hs.
    apply set_eq. intros x. rewrite elem_of_union, elem_of_singleton.
    split; [intros [->|Hx]; [by apply elem_of_list_to_set|done]|by right].
  - by apply (handleToggle_twice s k b).
Qed.

Lemma handleToggle_negates_one_key_witness :
  settings_state settings_init ∧ "darkMode" ∈ setting_keys
  ∧ (∃ b, settings_init !! "darkMode" = Some b
          ∧ handleToggle "darkMode" settings_init !! "darkMode"
            = Some (negb b))
  ∧ (∀ k', k' ≠ "darkMode" →
       handleToggle "darkMode" settings_init !! k' = settings_init !! k')
  ∧ settings_state (handleToggle "darkMode" settings_init)
  ∧ handleToggle "darkMode" (handleToggle "darkMode" settings_init)
    = settings_init.
Proof.
  assert (settings_state settings_init) as Hs
    by (unfold settings_state; vm_compute; reflexivity).
  assert ("darkMode" ∈ setting_keys) as Hk
    by (unfold setting_keys; repeat constructor).
  split; [exact Hs|]. split; [exact Hk|].
  exact (handleToggle_negates_one_key settings_init "darkMode" Hs Hk).
Defined.

End settings_properties.

(** ** TravelNewsScreen : the category filter *)

Section news_properties.
Import TravelNewsScreen.

Lemma newsData_ids : id <$> newsData = [1; 2; 3; 4; 5; 6]%nat.
Proof. reflexivity. Qed.

Lemma newsData_categories :
  category <$> newsData
  = ["environment"; "environment"; "weather"; "safety"; "traffic";
     "environment"].
Proof. reflexivity. Qed.

Lemma filteredNews_environment :
  id <$> filteredNews "environment" = [1; 2; 6]%nat.
Proof. reflexivity. Qed.

Lemma filteredNews_weather : id <$> filteredNews "weather" = [3]%nat.
Proof. reflexivity. Qed.

Lemma filteredNews_safety : id <$> filteredNews "safety" = [4]%nat.
Proof. reflexivity. Qed.

Lemma filteredNews_traffic : id <$> filteredNews "traffic" = [5]%nat.
Proof. reflexivity. Qed.

(** C3. [filteredNews] over the six articles of [newsData]: for the
    category 'all' it is [newsData] itself; for any other category it is
    a sublist of [newsData] (so the order of [newsData] is kept and
    nothing is repeated) whose members are exactly the articles of
    [newsData] with that category. *)
Theorem filteredNews_is_category_filter (selectedCategory : string) :
  length newsData = 6%nat
  ∧ (selectedCategory = "all" → filteredNews selectedCategory = newsData)
  ∧ (selectedCategory ≠ "all" →
       sublist (filteredNews selectedCategory) newsData
       ∧ ∀ item, item ∈ filteredNews selectedCategory
                 ↔ item ∈ newsData ∧ category item = selectedCategory).
Proof.
  split; [reflexivity|]. unfold filteredNews. split.
  - intros ->. reflexivity.
  - intros Hne. destruct (decide (selectedCategory = "all")) as [|_]; [done|].
    split.
    + apply sublist_filter.
    + intros item. rewrite list_elem_of_filter. tauto.
Qed.

Lemma filteredNews_is_category_filter_witness :
  ("traffic" ≠ "all" ∧ "all" = "all")
  ∧ (sublist (filteredNews "traffic") newsData
     ∧ ∀ item, item ∈ filteredNews "traffic"
               ↔ item ∈ newsData ∧ category item = "traffic")
  ∧ filteredNews "all" = newsData.
Proof.
  split; [split; [discriminate|reflexivity]|]. split.
  - apply (filteredNews_is_category_filter "traffic"). discriminate.
  - apply (filteredNews_is_category_filter "all"). reflexivity.
Defined.

End news_properties.

(** ** App : the login flag *)

Section app_properties.
Import App.

Lemma invoke_all_true (cbs : list callback) : invoke_all true cbs = true.
Proof.
  unfold invoke_all. induction cbs as [|[] cbs IH]; [reflexivity|exact IH].
Qed.

(** C6. [App] renders the Login stack screen exactly when [isLoggedIn]
    is false and the Main screen exactly when it is true; the flag
    starts false; the Login screen is given the one callback [onLogin]
    and the Main screen none; running a callback sets the flag to true
    whatever it was, so no run of callbacks takes the flag from true
    back to false. *)
Theorem App_switches_on_isLoggedIn :
  isLoggedIn_init = false
  ∧ (∀ isLoggedIn, render isLoggedIn = Login OnLogin ↔ isLoggedIn = false)
  ∧ (∀ isLoggedIn, render isLoggedIn = Main ↔ isLoggedIn = true)
  ∧ callbacks (render false) = [OnLogin]
  ∧ callbacks (render true) = []
  ∧ (∀ isLoggedIn cb, invoke isLoggedIn cb = true)
  ∧ (∀ cbs, invoke_all true cbs = true).
Proof.
  split; [reflexivity|].
  split; [intros []; unfold render; simpl; split; congruence|].
  split; [intros []; unfold render; simpl; split; congruence|].
  split; [reflexivity|]. split; [reflexivity|].
  split; [by intros ? []|]. apply invoke_all_true.
Qed.

End app_properties.

(** ** The timer queue *)

Section timers_properties.
Import Timers.
Context {callback world : Type}.
Variable get_queue : world → queue callback.
Variable set_queue : queue callback → world → world.
Variable dispatch : callback → world → world.

Lemma without_self (t : timer callback) : without (timer_id t) [t] = [].
Proof.
  unfold without. rewrite filter_cons, filter_nil.
  destruct (decide (timer_id t ≠ timer_id t)) as [H|_]; [by destruct H|done].
Qed.

Lemma fire_single (q : queue callback) (t : timer callback) :
  pending q = [t] → (now q ≤ due t)%N →
  fire q = Some (t, {| now := due t; next_id := next_id q;
                       pending := match period t with
                                  | None => []
                                  | Some p => [Timer (timer_id t) (due t + p) (Some p) (action t)]
                                  end |}).
Proof.
  intros Hp Hle. unfold fire. rewrite Hp. simpl. rewrite without_self.
  rewrite N.max_r by done. by destruct (period t).
Qed.

Lemma run_step (n : nat) (w w' : world) :
  tick get_queue set_queue dispatch w = Some w' →
  run get_queue set_queue dispatch (S n) w = run get_queue set_queue dispatch n w'.
Proof. intros H. simpl. by rewrite H. Qed.

Lemma run_quiescent (n : nat) (w : world) :
  quiescent get_queue w → run get_queue set_queue dispatch n w = w.
Proof.
  unfold quiescent. intros H. destruct n; [done|]. simpl. unfold tick, fire. by rewrite H.
Qed.
Lemma run_add (n m : nat) (w : world) :
  run get_queue set_queue dispatch (n + m) w
  = run get_queue set_queue dispatch m (run get_queue set_queue dispatch n w).
Proof.
  revert w. induction n as [|n IH]; intros w; [reflexivity|].
  simpl. destruct (tick _ _ _ w) as [w'|] eqn:Ht; [apply IH|].
  destruct m; [reflexivity|]. simpl. by rewrite Ht.
Qed.

End timers_properties.

(** ** LoginScreen : the two login handlers *)

Section login_properties.
Import LoginScreen.

Lemma since_app (w : world) (tr : list (N * call)) (s : state)
    (q : Timers.queue callback) :
  since w {| st := s; timers := q; trace := trace w ++ tr |} = tr.
Proof. unfold since. simpl. by rewrite drop_app_length. Qed.

(** The world in which [handleEmailLogin] ends once its timer, if any,
    has fired. *)
Lemma handleEmailLogin_run (w : world) (fuel : nat) :
  Timers.pending (timers w) = [] →
  let t := Timers.now (timers w) in
  run (S fuel) (handleEmailLogin w) =
  if bool_decide (email (st w) = "testuser@example.com")
     && bool_decide (password (st w) = "Test@1234")
  then {| st := {| email := email (st w); password := password (st w);
                   isLoading := false |};
          timers := {| Timers.now := t + 1000;
                       Timers.next_id := S (Timers.next_id (timers w));
                       Timers.pending := [] |};
          trace := trace w ++ [(t, SetIsLoading true);
                               (t + 1000, SetIsLoading false);
                               (t + 1000, OnLogin)]%N |}
  else {| st := st w; timers := timers w;
          trace := trace w ++
            [(t, Alert_alert "Error"
               "Invalid credentials. Use testuser@example.com and Test@1234")]
       |}.
Proof.
  intros Hidle t. unfold handleEmailLogin.
  destruct (bool_decide _ && bool_decide _).
  - unfold run. erewrite run_step.
    2:{ unfold Timers.tick. erewrite fire_single; [reflexivity| |].
        - simpl. rewrite Hidle. reflexivity.
        - simpl. lia. }
    rewrite run_quiescent; [|reflexivity].
    destruct w as [s [t0 i p] tr]. simpl in *. subst.
    unfold dispatch, onLogin, setIsLoading, emit, set_timers; simpl.
    rewrite <- !app_assoc. reflexivity.
  - unfold run. rewrite run_quiescent; [|done]. destruct w; reflexivity.
Qed.

(** The world in which [handleGoogleLogin] ends once its timer has
    fired. *)
Lemma handleGoogleLogin_run (w : world) (fuel : nat) :
  Timers.pending (timers w) = [] →
  let t := Timers.now (timers w) in
  run (S fuel) (handleGoogleLogin w) =
  {| st := {| email := email (st w); password := password (st w);
              isLoading := false |};
     timers := {| Timers.now := t + 1500;
                  Timers.next_id := S (Timers.next_id (timers w));
                  Timers.pending := [] |};
     trace := trace w ++ [(t, SetIsLoading true);
                          (t + 1500, SetIsLoading false);
                          (t + 1500, OnLogin)]%N |}.
Proof.
  intros Hidle t. unfold handleGoogleLogin, run. erewrite run_step.
  2:{ unfold Timers.tick. erewrite fire_single; [reflexivity| |].
      - simpl. rewrite Hidle. reflexivity.
      - simpl. lia. }
  rewrite run_quiescent; [|reflexivity].
  destruct w as [s [t0 i p] tr]. simpl in *. subst.
  unfold dispatch, onLogin, setIsLoading, emit, set_timers; simpl.
  rewrite <- !app_assoc. reflexivity.
Qed.

(** C1. [handleEmailLogin], started with no timer pending and followed
    until its timer has fired: [onLogin] is called if and only if the
    email is 'testuser@example.com' and the password is 'Test@1234', and
    then one second after the press; for every other pair the only call
    made is the alert 'Error', and [onLogin] is not called.  Afterwards
    no timer is left. *)
Theorem handleEmailLogin_checks_credentials (w : world) (fuel : nat) :
  Timers.pending (timers w) = [] →
  let t := Timers.now (timers w) in
  let w' := run (S fuel) (handleEmailLogin w) in
  let ok := email (st w) = "testuser@example.com"
            ∧ password (st w) = "Test@1234" in
  Timers.pending (timers w') = []
  ∧ (OnLogin ∈ calls_since w w' ↔ ok)
  ∧ (ok → since w w' = [(t, SetIsLoading true);
                        (t + 1000, SetIsLoading false);
                        (t + 1000, OnLogin)]%N)
  ∧ (¬ ok →
     calls_since w w'
     = [Alert_alert "Error"
          "Invalid credentials. Use testuser@example.com and Test@1234"]
     ∧ OnLogin ∉ calls_since w w').
Proof.
  intros Hidle t w' ok. subst w'. unfold calls_since.
  rewrite (handleEmailLogin_run w fuel Hidle). fold t.
  destruct (bool_decide (email (st w) = "testuser@example.com")) eqn:He;
    [apply bool_decide_eq_true in He|apply bool_decide_eq_false in He];
  [destruct (bool_decide (password (st w) = "Test@1234")) eqn:Hp;
    [apply bool_decide_eq_true in Hp|apply bool_decide_eq_false in Hp]|];
  simpl; rewrite since_app; simpl.
  - assert (ok) by done.
    split; [done|]. split; [split; [done|]; intros _; set_solver|].
    split; [done|]. done.
  - assert (¬ ok) by (intros []; done).
    split; [done|]. split; [split; [|done]; set_solver|].
    split; [done|]. intros _. split; [done|]. set_solver.
  - assert (¬ ok) by (intros []; done).
    split; [done|]. split; [split; [|done]; set_solver|].
    split; [done|]. intros _. split; [done|]. set_solver.
Qed.

Lemma handleEmailLogin_checks_credentials_witness :
  let w := {| st := {| email := "testuser@example.com";
                       password := "Test@1234"; isLoading := false |};
              timers := {| Timers.now := 0; Timers.next_id := 1;
                           Timers.pending := [] |};
              trace := [] |} in
  Timers.pending (timers w) = []
  ∧ OnLogin ∈ calls_since w (run 1 (handleEmailLogin w)).
Proof.
  intros w. split; [reflexivity|].
  apply (handleEmailLogin_checks_credentials w 0); split; reflexivity.
Defined.

(** Changing the two text fields commutes with everything the login
    timers do: no callback reads them. *)
Lemma dispatch_credentials (cb : callback) (e p : string) (w : world) :
  dispatch cb (setPassword p (setEmail e w))
  = setPassword p (setEmail e (dispatch cb w)).
Proof. by destruct cb. Qed.

Lemma tick_credentials (e p : string) (w : world) :
  Timers.tick timers set_timers dispatch (setPassword p (setEmail e w))
  = (λ w', setPassword p (setEmail e w'))
      <$> Timers.tick timers set_timers dispatch w.
Proof.
  unfold Timers.tick. simpl.
  destruct (Timers.fire (timers w)) as [[t q]|]; [|reflexivity].
  simpl. f_equal.
  change (set_timers q (setPassword p (setEmail e w)))
    with (setPassword p (setEmail e (set_timers q w))).
  apply dispatch_credentials.
Qed.

Lemma run_credentials (fuel : nat) (e p : string) (w : world) :
  run fuel (setPassword p (setEmail e w))
  = setPassword p (setEmail e (run fuel w)).
Proof.
  unfold run. revert w. induction fuel as [|fuel IH]; intros w; [reflexivity|].
  simpl. rewrite tick_credentials.
  destruct (Timers.tick timers set_timers dispatch w) as [w'|]; simpl;
    [apply IH|reflexivity].
Qed.

(** C8. [handleGoogleLogin] never looks at the email and password
    fields.  Started in any world, and started in the same world with
    any other content of the two fields, it makes the same calls at the
    same times and leaves the same timers and loading flag, however many
    timers are then let fire.  Started with no timer pending, it sets
    the loading flag and, once its timer has fired, 1.5 s later, has
    cleared the flag and called [onLogin]; no timer is left. *)
Theorem handleGoogleLogin_ignores_credentials
    (w : world) (e p : string) (fuel : nat) :
  let t := Timers.now (timers w) in
  let w1 := run fuel (handleGoogleLogin w) in
  let w2 := run fuel (handleGoogleLogin (setPassword p (setEmail e w))) in
  trace w2 = trace w1
  ∧ timers w2 = timers w1
  ∧ isLoading (st w2) = isLoading (st w1)
  ∧ (Timers.pending (timers w) = [] → (1 ≤ fuel)%nat →
     since w w1 = [(t, SetIsLoading true);
                   (t + 1500, SetIsLoading false);
                   (t + 1500, OnLogin)]%N
     ∧ OnLogin ∈ calls_since w w1
     ∧ Timers.pending (timers w1) = []).
Proof.
  intros t w1 w2. subst w1 w2.
  change (handleGoogleLogin (setPassword p (setEmail e w)))
    with (setPassword p (setEmail e (handleGoogleLogin w))).
  rewrite run_credentials.
  split; [reflexivity|]. split; [reflexivity|]. split; [reflexivity|].
  intros Hidle Hfuel. destruct fuel as [|fuel]; [lia|].
  unfold calls_since.
  rewrite (handleGoogleLogin_run w fuel Hidle). fold t. rewrite since_app.
  split; [reflexivity|]. split; [|reflexivity].
  simpl. set_solver.
Qed.

Lemma handleGoogleLogin_ignores_credentials_witness :
  let w := {| st := state_init;
              timers := {| Timers.now := 0; Timers.next_id := 1;
                           Timers.pending := [] |};
              trace := [] |} in
  (Timers.pending (timers w) = [] ∧ (1 ≤ 1)%nat)
  ∧ trace (run 1 (handleGoogleLogin
                    (setPassword "wrong" (setEmail "nobody" w))))
    = trace (run 1 (handleGoogleLogin w))
  ∧ since w (run 1 (handleGoogleLogin w))
    = [(0, SetIsLoading true); (1500, SetIsLoading false);
       (1500, OnLogin)]%N.
Proof.
  intros w. split; [split; [reflexivity|lia]|].
  pose proof (handleGoogleLogin_ignores_credentials w "nobody" "wrong" 1)
    as (H1 & _ & _ & H2).
  split; [exact H1|]. apply H2; [reflexivity|lia].
Defined.

End login_properties.

(** ** HomeScreen : the search *)

Section home_properties.
Import HomeScreen.
Local Open Scope list_scope.

Lemma shown_S (t : N) (k : nat) :
  (k < 6)%nat →
  shown t (S k) = shown t k ++ [((t + 1500 * N.of_nat (S k))%N, SetProgressMessage (progressMessages !! k))].
Proof.
  intros Hk. do 6 (destruct k as [|k]; [reflexivity|]). lia.
Qed.

Lemma handleSearch_searching (w : world) :
  trim (searchQuery (st w)) ≠ [] → Timers.pending (timers w) = [] →
  handleSearch w = searching w 0.
Proof.
  intros Hq Hidle. unfold handleSearch.
  destruct (trim (searchQuery (st w))) as [|c s]; [done|]. simpl.
  destruct w as [s0 es [t i p] tr]. simpl in *. subst p.
  unfold searching, set_envs, set_timers, shown. simpl.
  change (N.of_nat 0) with 0%N; change (N.of_nat 1) with 1%N.
  rewrite N.mul_0_r, N.add_0_r, N.mul_1_r, <- app_assoc. reflexivity.
Qed.

Lemma handleSearch_blank (w : world) :
  trim (searchQuery (st w)) = [] → handleSearch w = w.
Proof. intros H. unfold handleSearch. by rewrite H. Qed.

Ltac project :=
  cbn [st envs timers trace Timers.now Timers.next_id Timers.pending
       Timers.action Timers.period Timers.due Timers.timer_id
       messageIndex progressInterval searchQuery isSearching
       progressMessage showResults isListening fst snd].

Lemma tick_searching (w : world) (k : nat) :
  (k < 5)%nat →
  Timers.tick timers set_timers dispatch (searching w k) = Some (searching w (S k)).
Proof.
  intros Hk. unfold Timers.tick.
  erewrite fire_single; [|reflexivity|simpl; lia].
  f_equal. destruct w as [s0 es [t i p] tr].
  unfold searching, set_timers, dispatch, progressTick. project.
  rewrite lookup_app_r, Nat.sub_diag by lia. cbn [lookup list_lookup]. project.
  rewrite bool_decide_eq_false_2 by (simpl; lia).
  unfold set_envs, setProgressMessage, update. project.
  rewrite insert_app_r_alt, Nat.sub_diag by lia. cbn [insert list_insert].
  rewrite (shown_S t k) by lia.
  rewrite <- !app_assoc. cbn [app].
  replace (t + 1500 * N.of_nat (S k) + 1500)%N
    with (t + 1500 * N.of_nat (S (S k)))%N by lia.
  reflexivity.
Qed.

Lemma tick_searching_last (w : world) :
  Timers.tick timers set_timers dispatch (searching w 5) = Some (waiting w).
Proof.
  unfold Timers.tick.
  erewrite fire_single; [|reflexivity|simpl; lia].
  f_equal. destruct w as [s0 es [t i p] tr].
  unfold searching, waiting, set_timers, dispatch, progressTick. project.
  rewrite lookup_app_r, Nat.sub_diag by lia. cbn [lookup list_lookup]. project.
  rewrite bool_decide_eq_true_2 by (simpl; lia).
  unfold set_envs, setProgressMessage, update, setTimeout, clearInterval,
    set_timers. project.
  rewrite insert_app_r_alt, Nat.sub_diag by lia. cbn [insert list_insert].
  unfold Timers.clearInterval, Timers.setTimeout, Timers.schedule. project.
  rewrite (without_self (Timers.Timer i _ _ _)).
  rewrite (shown_S t 5) by lia.
  rewrite <- !app_assoc. cbn [app].
  replace (t + 1500 * N.of_nat 6)%N with (t + 9000)%N by lia.
  reflexivity.
Qed.

Lemma tick_waiting (w : world) :
  Timers.tick timers set_timers dispatch (waiting w) = Some (finished w).
Proof.
  unfold Timers.tick.
  erewrite fire_single; [|reflexivity|simpl; lia].
  f_equal. destruct w as [s0 es [t i p] tr].
  unfold waiting, finished, dispatch, setShowResults, setIsSearching, update, set_timers.
  simpl. rewrite <- !app_assoc. reflexivity.
Qed.

Lemma run_searching (w : world) (n k : nat) :
  (k + n ≤ 5)%nat → run n (searching w k) = searching w (k + n).
Proof.
  revert k. induction n as [|n IH]; intros k Hk.
  - by rewrite Nat.add_0_r.
  - unfold run. erewrite run_step by (apply tick_searching; lia).
    fold run. rewrite IH by lia. f_equal. lia.
Qed.

Lemma run_finished (w : world) (fuel : nat) :
  run (7 + fuel) (searching w 0) = finished w.
Proof.
  replace (7 + fuel)%nat with (5 + S (S fuel))%nat by lia.
  pose proof (run_searching w 5 0 ltac:(lia)) as H5. unfold run in *.
  rewrite run_add, H5.
  erewrite run_step by apply tick_searching_last.
  erewrite run_step by apply tick_waiting.
  by rewrite run_quiescent.
Qed.




(** Until the first tick the overlay shows the text that
    [progressMessage] held before the search: [handleSearch] does not
    reset it. *)
Lemma overlay_before_first_tick (w : world) :
  trim (searchQuery (st w)) ≠ [] → Timers.pending (timers w) = [] →
  renderProgressOverlay (st (handleSearch w)) = Some (progressMessage (st w)).
Proof.
  intros Hq Hidle. by rewrite (handleSearch_searching w Hq Hidle).
Qed.





End home_properties.

(** ** MapSection : the routing request and the map *)

Section map_properties.
Import MapSection.
Local Open Scope list_scope.
Context {number : Type}.
Variable js : number → string.

Lemma prefix_app (n h : string) :
  String.prefix n h = true ↔ ∃ b, h = n +:+ b.
Proof.
  revert h. induction n as [|c n IH]; intros [|c' h]; simpl.
  - split; [intros _; by exists ""|done].
  - split; [intros _; by exists (String c' h)|done].
  - split; [done|intros [b Hb]; discriminate].
  - destruct (Ascii.ascii_dec c c') as [->|Hne].
    + rewrite IH. split; intros [b Hb]; exists b; [by rewrite Hb|].
      by injection Hb.
    + split; [done|]. intros [b Hb]. injection Hb as ? ?. done.
Qed.

(** [includes] holds exactly when the needle occurs in the haystack. *)
Lemma includes_app (n h : string) :
  includes n h = true ↔ ∃ a b, h = a +:+ n +:+ b.
Proof.
  induction h as [|c h IH].
  - cbn [includes]. rewrite orb_false_r, prefix_app. split.
    + intros [b Hb]. by exists "", b.
    + intros (x & b & Hb). destruct x as [|c x]; [by exists b|discriminate].
  - cbn [includes]. rewrite orb_true_iff, prefix_app, IH. split.
    + intros [[b Hb]|(x & b & Hb)].
      * by exists "", b.
      * exists (String c x), b. simpl. by rewrite Hb.
    + intros (x & b & Hb). destruct x as [|c' x].
      * left. by exists b.
      * right. injection Hb as _ Hb. by exists x, b.
Qed.

Lemma requests_app (l1 l2 : list call) :
  requests (l1 ++ l2) = requests l1 ++ requests (number:=number) l2.
Proof. apply omap_app. Qed.

(** What one event adds to the requests made: a render that takes the
    prop from false to true adds one request, every other event none. *)
Lemma step_requests (m : component) (ev : event) :
  requests (trace (step js m ev))
  = requests (trace m)
    ++ match ev with
       | Render true => if showResults m then [] else [route_url]
       | _ => []
       end.
Proof.
  destruct m as [sr s n tr]. destruct ev as [p|r]; simpl.
  - unfold rerender. simpl.
    destruct sr, p; simpl; rewrite ?requests_app, ?app_nil_r; reflexivity.
  - destruct n as [|n]; simpl; [by rewrite app_nil_r|].
    unfold rerender.
    assert (∀ m', showResults (fetchRoute_resume js r m') = showResults m')
      as Hsr by (intros m'; destruct r as [?|[|? ?]]; reflexivity).
    rewrite Hsr. simpl. rewrite bool_decide_eq_true_2 by done. simpl.
    rewrite app_nil_r.
    destruct r as [?|[|? ?]]; simpl; rewrite <- ?app_assoc, !requests_app;
      simpl; by rewrite app_nil_r.
Qed.

Lemma step_showResults (m : component) (ev : event) :
  showResults (step js m ev)
  = match ev with Render p => p | Settled _ => showResults m end.
Proof.
  destruct m as [sr s n tr]. destruct ev as [p|r]; simpl.
  - unfold rerender. simpl. destruct (bool_decide _); [reflexivity|].
    unfold effect. simpl. by destruct p.
  - destruct n as [|n]; simpl; [reflexivity|].
    unfold rerender. destruct (bool_decide _); [reflexivity|].
    unfold effect. simpl. by destruct sr.
Qed.

Lemma steps_requests (evs : list event) (m : component) :
  requests (trace (steps js m evs))
  = requests (trace m) ++ replicate (rising_edges (showResults m) evs) route_url.
Proof.
  revert m. induction evs as [|ev evs IH]; intros m; simpl.
  - by rewrite app_nil_r.
  - unfold steps in *. simpl. rewrite IH, step_requests, step_showResults.
    rewrite <- app_assoc. f_equal.
    destruct ev as [[|]|r]; destruct (showResults m); reflexivity.
Qed.


(** C5. The requests of [MapSection].  Mounted with the prop false it
    has made no request; after any sequence of renders and settlements
    it has made exactly one request per render that took [showResults]
    from false to true; a settlement, failed or not, adds no request;
    a render with the prop false adds none; a render that keeps the prop
    true adds none; and a render from false to true adds one whatever
    the number of requests still in flight. *)
Theorem one_request_per_rising_edge :
  requests (trace (mount (number:=number) false)) = []
  ∧ (∀ evs, requests (trace (steps js (mount false) evs))
            = replicate (rising_edges false evs) route_url)
  ∧ (∀ m r, requests (trace (step js m (Settled r))) = requests (trace m))
  ∧ (∀ m, requests (trace (step js m (Render false))) = requests (trace m))
  ∧ (∀ m, showResults m = true →
          requests (trace (step js m (Render true))) = requests (trace m))
  ∧ (∀ m, showResults m = false →
          requests (trace (step js m (Render true)))
          = requests (trace m) ++ [route_url]).
Proof.
  split; [reflexivity|]. split; [intros evs; by rewrite steps_requests|].
  split; [intros m r; by rewrite step_requests, app_nil_r|].
  split; [intros m; by rewrite step_requests, app_nil_r|].
  split; intros m Hm; by rewrite step_requests, Hm, ?app_nil_r.
Qed.

Lemma append_assoc (x y z : string) : (x +:+ y) +:+ z = x +:+ y +:+ z.
Proof.
  induction x as [|c x IH]; [reflexivity|].
  change (String c ((x +:+ y) +:+ z) = String c (x +:+ y +:+ z)).
  by rewrite IH.
Qed.

Lemma includes_append_l (n x h : string) :
  includes n h = true → includes n (x +:+ h) = true.
Proof.
  rewrite !includes_app. intros (u & v & ->). exists (x +:+ u), v.
  by rewrite append_assoc.
Qed.

Lemma includes_append_r (n h y : string) :
  includes n h = true → includes n (h +:+ y) = true.
Proof.
  rewrite !includes_app. intros (u & v & ->). exists u, (v +:+ y).
  by rewrite !append_assoc.
Qed.

(** The head of the template does not depend on the coordinates. *)
Lemma generateMapHTML_head (coords : list position) :
  ∃ rest, generateMapHTML js coords = html_open +:+ rest.
Proof. by eexists. Qed.

Lemma generateMapHTML_remote (coords : list position) :
  includes leaflet_stylesheet (generateMapHTML js coords) = true
  ∧ includes leaflet_script (generateMapHTML js coords) = true
  ∧ includes tile_url (generateMapHTML js coords) = true.
Proof.
  unfold generateMapHTML. split; [|split].
  - apply includes_append_r. vm_compute. reflexivity.
  - apply includes_append_r. vm_compute. reflexivity.
  - do 4 apply includes_append_l. apply includes_append_r.
    vm_compute. reflexivity.
Qed.

(** C7. The request [MapSection] makes.  The URL given to [axios.get]
    is built from the two constants, longitude before latitude, Delhi
    before Mandi; every request the component itself sends, in any run,
    is a GET of that URL; and when the request is fulfilled with a first
    route, the coordinates of its geometry are stored as they are in
    [routeCoordinates] and given to [generateMapHTML], whose result
    becomes [mapHTML] and is what the web view shows.  It is not all the
    application fetches: the HTML, whatever the coordinates, loads the
    stylesheet and the script of Leaflet and names the tile server, and
    the news screen on its first render gives six remote image addresses
    to its cards. *)
Theorem route_request_and_response :
  route_url
  = "https://router.project-osrm.org/route/v1/driving/77.209,28.6139;76.9333,31.7333?geometries=geojson"
  ∧ Number_toString (longitude Delhi) = "77.209"
  ∧ Number_toString (latitude Delhi) = "28.6139"
  ∧ Number_toString (longitude Mandi) = "76.9333"
  ∧ Number_toString (latitude Mandi) = "31.7333"
  ∧ (∀ p evs u, u ∈ requests (trace (steps js (mount p) evs)) → u = route_url)
  ∧ (∀ m r0 rs,
       in_flight m ≠ 0%nat →
       let coords := geometry_coordinates r0 in
       let m' := step js m (Settled (Fulfilled (r0 :: rs))) in
       routeCoordinates (st m') = coords
       ∧ mapHTML (st m') = generateMapHTML js coords
       ∧ trace m' = trace m ++ [SetRouteCoordinates coords;
                                SetMapHTML (generateMapHTML js coords)]
       ∧ (showResults m = true →
          render m' = WebView (generateMapHTML js coords)))
  ∧ (∀ coords,
       includes leaflet_stylesheet (generateMapHTML js coords) = true
       ∧ includes leaflet_script (generateMapHTML js coords) = true
       ∧ includes tile_url (generateMapHTML js coords) = true)
  ∧ TravelNewsScreen.image_uris TravelNewsScreen.selectedCategory_init
    = [ "https://images.unsplash.com/photo-1602407294553-68e1a74691dd?auto=format&fit=crop&w=800&q=60";
        "https://images.unsplash.com/photo-1526778548025-fa2f459cd5c1?auto=format&fit=crop&w=800&q=60";
        "https://images.unsplash.com/photo-1506744038136-46273834b3fb?auto=format&fit=crop&w=800&q=60";
        "https://images.unsplash.com/photo-1587740896339-2e6d1a6936fc?auto=format&fit=crop&w=800&q=60";
        "https://images.unsplash.com/photo-1544197150-b99a580bb7a8?auto=format&fit=crop&w=800&q=60";
        "https://images.unsplash.com/photo-1615906658185-10233b1b87b7?auto=format&fit=crop&w=800&q=60" ].
Proof.
  split; [reflexivity|]. do 4 (split; [reflexivity|]). split; [|split; [|split]].
  - intros p evs u. rewrite steps_requests. rewrite elem_of_app.
    intros [Hu|Hu].
    + destruct p; simpl in Hu; [|by apply elem_of_nil in Hu].
      by apply list_elem_of_singleton in Hu.
    + by apply elem_of_replicate in Hu as [-> _].
  - intros m r0 rs Hn coords m'. subst m'. destruct m as [sr s [|n] tr]; [done|].
    simpl. unfold rerender. simpl. rewrite bool_decide_eq_true_2 by done.
    simpl. rewrite <- app_assoc. do 3 (split; [reflexivity|]).
    intros ->. unfold render. cbn [showResults negb st mapHTML].
    rewrite bool_decide_eq_false_2; [reflexivity|].
    destruct (generateMapHTML_head (geometry_coordinates r0)) as [rest ->].
    discriminate.
  - apply generateMapHTML_remote.
  - reflexivity.
Qed.


(** The HTML built for an empty coordinate list does not depend on the
    numbers of a response: it is one fixed text. *)
Lemma generateMapHTML_nil_nonempty : generateMapHTML js [] ≠ "".
Proof. vm_compute. discriminate. Qed.

(** With coordinates the HTML declares the polyline and fits the map
    to it. *)
Lemma generateMapHTML_cons_overlay (c : position) (cs : list position) :
  includes "var polyline = L.polyline(routeCoords"
    (generateMapHTML js (c :: cs)) = true
  ∧ includes "map.fitBounds(polyline.getBounds()"
      (generateMapHTML js (c :: cs)) = true.
Proof.
  unfold generateMapHTML. rewrite bool_decide_eq_true_2 by (simpl; lia).
  split.
  - do 13 apply includes_append_l. apply includes_append_r.
    do 2 apply includes_append_l. reflexivity.
  - do 15 apply includes_append_l. apply includes_append_r. reflexivity.
Qed.

(** C4. When the request fails (the promise is rejected, or the
    response carries no route), [fetchRoute] logs the error under the
    label 'Error fetching route:' and sets [mapHTML] to
    [generateMapHTML []]; the results being shown, the component then
    renders the web view on that HTML.  The HTML for the empty list
    contains the tile layer and the Delhi and Mandi markers, and
    contains neither the word polyline nor the word fitBounds. *)
Theorem failed_request_renders_map_without_route
    (m : component) (r : settlement) :
  in_flight m ≠ 0%nat → failed r = true →
  let m' := step js m (Settled r) in
  let html := generateMapHTML js [] in
  (∃ e, trace m' = trace m ++ [ConsoleError "Error fetching route:" e;
                               SetMapHTML html])
  ∧ mapHTML (st m') = html
  ∧ (showResults m = true → render m' = WebView html)
  ∧ includes
      "L.tileLayer('https://{s}.tile.openstreetmap.org/{z}/{x}/{y}.png', {"
      html = true
  ∧ includes "var delhiMarker = L.marker([28.6139, 77.209]).addTo(map);"
      html = true
  ∧ includes "var mandiMarker = L.marker([31.7333, 76.9333]).addTo(map);"
      html = true
  ∧ includes "polyline" html = false
  ∧ includes "fitBounds" html = false.
Proof.
  intros Hn Hr m' html. subst m'.
  assert (step js m (Settled r)
          = {| showResults := showResults m;
               st := {| routeCoordinates := routeCoordinates (st m);
                        mapHTML := html |};
               in_flight := pred (in_flight m);
               trace := trace m ++
                 [ConsoleError "Error fetching route:"
                    match r with
                    | Rejected reason => RequestError reason
                    | Fulfilled _ => TypeError
                    end;
                  SetMapHTML html] |}) as ->.
  { destruct m as [sr s [|n] tr]; [done|]. simpl. unfold rerender.
    destruct r as [reason|[|r0 rs]]; [| |done]; simpl;
      rewrite bool_decide_eq_true_2 by done; simpl;
      by rewrite <- app_assoc. }
  cbn [trace st mapHTML routeCoordinates].
  split; [by eexists|]. split; [reflexivity|].
  split.
  { intros ->. unfold render. cbn [showResults negb st mapHTML].
    by rewrite bool_decide_eq_false_2 by apply generateMapHTML_nil_nonempty. }
  subst html. repeat split; vm_compute; reflexivity.
Qed.

End map_properties.

(** The three statements above at a response made of natural numbers,
    written in decimal. *)
Section map_instances.
Import MapSection.
Local Open Scope list_scope.

Lemma one_request_per_rising_edge_witness :
  let m : component (number:=N) :=
    steps pretty (mount false) [Render true; Settled (Rejected "timeout")] in
  (showResults m = true
   ∧ showResults (step pretty m (Render false)) = false)
  ∧ requests (trace (step pretty m (Render true))) = requests (trace m)
  ∧ requests (trace (step pretty (step pretty m (Render false))
                          (Render true)))
    = [route_url; route_url].
Proof.
  intros m. split; [split; reflexivity|].
  pose proof (one_request_per_rising_edge (number:=N) pretty)
    as (_ & _ & _ & _ & H5 & H6).
  split; [apply H5; reflexivity|].
  rewrite H6 by reflexivity. reflexivity.
Defined.

Lemma route_request_and_response_witness :
  let m : component (number:=N) :=
    steps pretty (mount false) [Render true] in
  let coords := [[77; 28]; [76; 31]]%N in
  in_flight m ≠ 0%nat
  ∧ routeCoordinates
      (st (step pretty m (Settled (Fulfilled [Route coords]))))
    = coords.
Proof.
  intros m coords. assert (in_flight m ≠ 0%nat) as Hn by discriminate.
  split; [exact Hn|].
  pose proof (route_request_and_response (number:=N) pretty)
    as (_ & _ & _ & _ & _ & _ & H & _).
  apply (H m (Route coords) [] Hn).
Defined.

(** The routing request is not the only thing the application fetches.
    The news screen, on its first render, gives six remote image
    addresses to [Image] components, none of them the routing URL; and
    the HTML handed to the web view, here the one built after a failed
    request, loads the stylesheet and the script of Leaflet from
    unpkg.com and names the tile server. *)
Lemma route_request_and_response_counterexample :
  let uris := TravelNewsScreen.image_uris "all" in
  let m : component (number:=N) :=
    steps pretty (mount false)
      [Render true; Settled (Rejected "Network Error")] in
  length uris = 6%nat
  ∧ Forall (λ u, String.prefix "https://images.unsplash.com/" u = true
                 ∧ u ≠ route_url) uris
  ∧ requests (trace m) = [route_url]
  ∧ (∃ html, render m = WebView html
             ∧ includes leaflet_stylesheet html = true
             ∧ includes leaflet_script html = true
             ∧ includes tile_url html = true).
Proof.
  intros uris m. split; [reflexivity|]. split.
  { subst uris. unfold TravelNewsScreen.image_uris. simpl.
    repeat (constructor; [split; [reflexivity|];
                          intros H; vm_compute in H; discriminate H|]).
    constructor. }
  split; [reflexivity|].
  eexists. split; [reflexivity|].
  split; [vm_compute; reflexivity|].
  split; vm_compute; reflexivity.
Qed.

Lemma failed_request_renders_map_without_route_witness :
  let m : component (number:=N) :=
    steps pretty (mount false) [Render true] in
  let r := Rejected "Network Error" in
  (in_flight m ≠ 0%nat ∧ failed r = true)
  ∧ mapHTML (st (step pretty m (Settled r)))
    = generateMapHTML (number:=N) pretty [].
Proof.
  intros m r. assert (in_flight m ≠ 0%nat) as Hn by discriminate.
  split; [split; [exact Hn|reflexivity]|].
  apply (failed_request_renders_map_without_route pretty m r Hn eq_refl).
Defined.

End map_instances.

(** ** The numeric solver : the shortcut on a common factor *)

Section solver_properties.
Import Solver.
Local Open Scope Z_scope.
Local Open Scope list_scope.

(** On numbers that are not negative the loop of [__gcd] computes the
    greatest common divisor. *)
Lemma gcd_loop_gcd (fuel : nat) (m n : Z) :
  0 ≤ m → 0 ≤ n → n < Z.of_nat fuel → gcd_loop fuel m n = Z.gcd m n.
Proof.
  revert m n. induction fuel as [|fuel IH]; intros m n Hm Hn Hf; [lia|].
  simpl. destruct (Z.eqb_spec n 0) as [->|Hne].
  - rewrite Z.gcd_0_r. lia.
  - assert (0 ≤ Z.rem m n < n) as Hr by (apply Z.rem_bound_pos; lia).
    rewrite IH by lia.
    rewrite Z.rem_mod_nonneg by lia.
    rewrite Z.gcd_comm, Z.gcd_mod by lia. apply Z.gcd_comm.
Qed.

Lemma gcd_nonneg (m n : Z) : 0 ≤ m → 0 ≤ n → __gcd m n = Z.gcd m n.
Proof. intros Hm Hn. unfold __gcd. apply gcd_loop_gcd; lia. Qed.

(** On negative numbers the loop can end on a negative value, where the
    mathematical gcd is 2. *)
Lemma gcd_negative : __gcd (-4) (-6) = -2 ∧ Z.gcd (-4) (-6) = 2.
Proof. split; reflexivity. Qed.

Lemma scan_j_spec (ai : Z) (rest : list Z) (ok : bool) :
  scan_j ai rest ok = ok || existsb (λ aj, 1 <? __gcd ai aj) rest.
Proof.
  revert ok. induction rest as [|aj rest IH]; intros ok; simpl.
  - by rewrite orb_false_r.
  - destruct ok; [reflexivity|]. rewrite IH. simpl.
    by destruct (1 <? __gcd ai aj).
Qed.

Lemma scan_i_true (a : list Z) : scan_i a true = true.
Proof. by destruct a. Qed.

(** The two loops find a pair exactly when there is one. *)
Lemma scan_i_spec (a : list Z) :
  scan_i a false = true
  ↔ ∃ i j ai aj, (i < j)%nat ∧ a !! i = Some ai ∧ a !! j = Some aj
                 ∧ 1 < __gcd ai aj.
Proof.
  induction a as [|x a IH]; simpl.
  - split; [done|]. intros (i & j & ai & aj & _ & H & _). done.
  - rewrite scan_j_spec. simpl.
    destruct (existsb (λ aj, 1 <? __gcd x aj) a) eqn:He.
    + rewrite scan_i_true. split; [intros _|done].
      apply existsb_exists in He as (aj & Hin & Hg).
      apply list_elem_of_In, list_elem_of_lookup in Hin as [j Hj].
      exists 0%nat, (S j), x, aj. repeat split; [lia|done|lia].
    + rewrite IH. split.
      * intros (i & j & ai & aj & Hij & Hi & Hj & Hg).
        exists (S i), (S j), ai, aj. repeat split; [lia|done..].
      * intros (i & j & ai & aj & Hij & Hi & Hj & Hg).
        destruct j as [|j]; [lia|]. destruct i as [|i].
        -- simpl in Hi, Hj. injection Hi as <-.
           assert (existsb (λ aj, 1 <? __gcd x aj) a = true) as He'.
           { apply existsb_exists. exists aj. split; [|lia].
             apply list_elem_of_In, list_elem_of_lookup. by exists j. }
           congruence.
        -- exists i, j, ai, aj. repeat split; [lia|done..].
Qed.




End solver_properties.

(* ===================================================================== *)
(** * Further properties *)
(* ===================================================================== *)

(** ** SettingsScreen : runs of toggles *)

Section settings_more.
Import SettingsScreen.
Local Open Scope list_scope.

Lemma handleToggle_keeps_keys (s : gmap string bool) (k : string) :
  settings_state s → k ∈ setting_keys → settings_state (handleToggle k s).
Proof.
  unfold settings_state, handleToggle. intros Hs Hk.
  rewrite dom_insert_L, Hs. apply set_eq. intros x.
  rewrite elem_of_union, elem_of_singleton.
  split; [intros [->|Hx]; [by apply elem_of_list_to_set|done]|by right].
Qed.

Lemma switch_keys_setting_keys (k : string) :
  k ∈ switch_keys ↔ k ∈ setting_keys.
Proof.
  unfold switch_keys, setting_keys. rewrite !elem_of_cons, !elem_of_nil.
  tauto.
Qed.

(** X1. Two toggles can be done in either order, whatever the object and
    whatever the keys: its own, inherited, or neither. *)
Theorem handleToggle_commute (s : gmap string bool) (k1 k2 : string) :
  handleToggle k1 (handleToggle k2 s) = handleToggle k2 (handleToggle k1 s).
Proof.
  destruct (decide (k1 = k2)) as [->|Hne]; [reflexivity|].
  unfold handleToggle, not_prop, prop_truthy.
  rewrite !lookup_insert_ne by done. by apply insert_insert_ne.
Qed.

(** X2. After any run of toggles a key that was present holds its first
    value if it was toggled an even number of times and the negation of
    it otherwise; toggles of other keys do not count. *)
Theorem toggles_parity (ks : list string) (s : gmap string bool)
    (k : string) (b : bool) :
  s !! k = Some b →
  toggles ks s !! k
  = Some (if Nat.odd (length (filter (λ k', k' = k) ks)) then negb b else b).
Proof.
  revert s b. induction ks as [|k' ks IH]; intros s b Hb; [done|].
  unfold toggles in *. simpl. rewrite filter_cons.
  destruct (decide (k' = k)) as [->|Hne].
  - rewrite (IH _ (negb b)).
    + simpl length. rewrite Nat.odd_succ, <- Nat.negb_odd.
      by destruct (Nat.odd _), b.
    + unfold handleToggle, not_prop, prop_truthy.
      by rewrite lookup_insert_eq, Hb.
  - apply IH. unfold handleToggle. by rewrite lookup_insert_ne.
Qed.

Lemma toggles_parity_witness :
  settings_init !! "darkMode" = Some false
  ∧ toggles ["darkMode"; "dataUsage"; "darkMode"; "darkMode"] settings_init
    !! "darkMode" = Some true.
Proof.
  split; [reflexivity|].
  exact (toggles_parity ["darkMode"; "dataUsage"; "darkMode"; "darkMode"]
           settings_init "darkMode" false eq_refl).
Defined.



(** X4. The switches of the screen are bound to the seven keys of the
    object, each key to one switch; so however the switches are flipped
    the object keeps exactly its seven keys and every switch has a
    boolean to show, never undefined. *)
Theorem switches_keep_settings_total (ks : list string) :
  Forall (λ k, k ∈ switch_keys) ks →
  switch_keys ≡ₚ setting_keys
  ∧ NoDup switch_keys
  ∧ settings_state (toggles ks settings_init)
  ∧ ∀ k, k ∈ switch_keys →
         is_Some (switch_value (toggles ks settings_init) k).
Proof.
  intros Hks.
  assert (settings_state (toggles ks settings_init)) as Hst.
  { assert (settings_state settings_init) as H0
      by (unfold settings_state; vm_compute; reflexivity).
    revert H0. generalize settings_init.
    induction Hks as [|k ks Hk _ IH]; intros s Hs; [done|].
    apply IH. apply handleToggle_keeps_keys; [done|].
    by apply switch_keys_setting_keys. }
  split; [|split; [|split; [exact Hst|]]].
  - unfold switch_keys, setting_keys.
    do 3 apply Permutation_skip.
    etrans; [apply Permutation_swap|]. 
    etrans; [apply Permutation_skip, Permutation_swap|].
    etrans; [apply Permutation_skip, Permutation_skip, Permutation_swap|].
    reflexivity.
  - unfold switch_keys. repeat (apply NoDup_cons; split; [set_solver|]).
    apply NoDup_nil_2.
  - intros k Hk. unfold switch_value. apply elem_of_dom. rewrite Hst.
    apply elem_of_list_to_set. by apply switch_keys_setting_keys.
Qed.

Lemma switches_keep_settings_total_witness :
  Forall (λ k, k ∈ switch_keys) ["darkMode"; "notifications"]
  ∧ settings_state (toggles ["darkMode"; "notifications"] settings_init).
Proof.
  assert (Forall (λ k, k ∈ switch_keys) ["darkMode"; "notifications"]) as H
    by (repeat constructor).
  split; [exact H|].
  apply (switches_keep_settings_total ["darkMode"; "notifications"] H).
Defined.

End settings_more.

(** ** TravelNewsScreen : the chips *)

Section news_more.
Import TravelNewsScreen.
Local Open Scope list_scope.

Lemma filteredNews_nil_iff (selectedCategory : string) :
  filteredNews selectedCategory = []
  ↔ selectedCategory ∉ chip_id <$> categories.
Proof.
  split.
  - intros Hnil Hin. cbn in Hin.
    repeat (apply elem_of_cons in Hin as [->|Hin]; [discriminate Hnil|]).
    by apply elem_of_nil in Hin.
  - intros Hno. unfold filteredNews.
    destruct (decide (selectedCategory = "all")) as [->|_].
    { exfalso. apply Hno. cbn. set_solver. }
    destruct (filter _ newsData) as [|x l] eqn:Hf; [done|].
    assert (x ∈ filter (λ item, category item = selectedCategory) newsData)
      as Hx by (rewrite Hf; left).
    apply list_elem_of_filter in Hx as [<- Hx]. exfalso. apply Hno.
    unfold newsData in Hx.
    repeat (apply elem_of_cons in Hx as [->|Hx]; [cbn; set_solver|]).
    by apply elem_of_nil in Hx.
Qed.

(** X5. The list shown is empty exactly for the categories no chip offers.
    The selected category starts as 'all' and changes only by a press
    on a chip, so whatever chips are pressed, in whatever order, it is
    the id of a chip and the list shown is not empty. *)
Theorem chips_never_show_empty (presses : list chip) :
  Forall (λ c, c ∈ categories) presses →
  let selectedCategory :=
    foldl (λ s c, press_chip c s) selectedCategory_init presses in
  (∀ c, filteredNews c = [] ↔ c ∉ chip_id <$> categories)
  ∧ selectedCategory ∈ chip_id <$> categories
  ∧ filteredNews selectedCategory ≠ [].
Proof.
  intros Hp sel. split; [apply filteredNews_nil_iff|].
  assert (sel ∈ chip_id <$> categories) as Hsel.
  { subst sel. induction presses as [|c l IH] using rev_ind.
    - cbn. set_solver.
    - rewrite foldl_snoc. unfold press_chip.
      rewrite Forall_app, Forall_singleton in Hp. destruct Hp as [_ Hc].
      by apply list_elem_of_fmap_2. }
  split; [exact Hsel|]. intros Hnil.
  by apply filteredNews_nil_iff in Hnil.
Qed.

Lemma chips_never_show_empty_witness :
  let c := {| chip_id := "safety"; chip_name := "Safety";
              chip_icon := "security" |} in
  Forall (λ c, c ∈ categories) [c]
  ∧ filteredNews (foldl (λ s c, press_chip c s) selectedCategory_init [c])
    ≠ [].
Proof.
  intros c.
  assert (Forall (λ c, c ∈ categories) [c]) as H
    by (repeat constructor).
  split; [exact H|]. apply (chips_never_show_empty [c] H).
Defined.

End news_more.

(** ** App : the tabs and the way out of the login screen *)

Section app_more.
Import App.
Local Open Scope list_scope.

(** X6. [tabBarIcon] names an icon for each of the four tabs, a different
    one for each, and for no other route name. *)
Theorem every_tab_has_its_icon :
  (∀ name, is_Some (iconName name) ↔ name ∈ tabs)
  ∧ (∀ n1 n2, n1 ∈ tabs → iconName n1 = iconName n2 → n1 = n2)
  ∧ iconName <$> tabs
    = [Some "home"; Some "person"; Some "settings"; Some "article"].
Proof.
  assert (∀ name, is_Some (iconName name) ↔ name ∈ tabs) as H1.
  { intros name. unfold iconName, tabs.
    rewrite !elem_of_cons, elem_of_nil.
    repeat case_decide; subst; split; intros Hx;
      try (by eexists); try tauto; try (by destruct Hx as [? [=]]). }
  split; [exact H1|]. split; [|reflexivity].
  intros n1 n2 Hin Heq.
  assert (n2 ∈ tabs) as Hin2.
  { apply H1. rewrite <- Heq. by apply H1. }
  unfold tabs in *.
  repeat (apply elem_of_cons in Hin as [->|Hin]);
    try (by apply elem_of_nil in Hin);
    repeat (apply elem_of_cons in Hin2 as [->|Hin2]);
    try (by apply elem_of_nil in Hin2); try reflexivity; discriminate Heq.
Qed.

Lemma after_login_calls_true (cs : list LoginScreen.call) :
  after_login_calls true cs = true.
Proof.
  unfold after_login_calls.
  induction cs as [|c cs IH]; [reflexivity|]. by destruct c.
Qed.

Lemma after_login_calls_iff (cs : list LoginScreen.call) :
  after_login_calls false cs = true ↔ LoginScreen.OnLogin ∈ cs.
Proof.
  unfold after_login_calls. induction cs as [|c cs IH]; simpl.
  - split; [done|]. intros H. by apply elem_of_nil in H.
  - rewrite elem_of_cons. destruct c; simpl.
    + rewrite IH. split; [by right|]. by intros [|].
    + fold (after_login_calls true cs). rewrite after_login_calls_true.
      split; [by left|done].
    + rewrite IH. split; [by right|]. by intros [|].
Qed.

End app_more.

(** ** LoginScreen : what the disabled buttons guarantee *)

Section timers_more.
Import Timers.
Context {callback : Type}.

Lemma fire_singleton (q : queue callback) (t : timer callback) :
  pending q = [t] →
  fire q = Some (t, {| now := N.max (now q) (due t);
                       next_id := next_id q;
                       pending :=
                         match period t with
                         | None => []
                         | Some p => [Timer (timer_id t) (due t + p)%N
                                            (Some p) (action t)]
                         end |}).
Proof.
  intros Hp. unfold fire. rewrite Hp. simpl. rewrite without_self.
  by destruct (period t).
Qed.

End timers_more.

Section login_more.
Import LoginScreen.
Local Open Scope list_scope.

Lemma count_call_snoc (c c' : call) (t : N) (l : list (N * call)) :
  count_call c (l ++ [(t, c')])
  = (count_call c l + if decide (c' = c) then 1 else 0)%nat.
Proof.
  unfold count_call. rewrite filter_app, length_app, filter_cons. simpl.
  by destruct (decide (c' = c)).
Qed.

Lemma login_shape_start_timer (w : world) (cb : callback) (d : N) :
  login_shape w → isLoading (st w) = false →
  login_shape (setTimeout cb d (setIsLoading true w)).
Proof.
  intros ([[_ Hp]|[Hl _]] & Hc1 & Hc2) Hf; [|congruence].
  destruct w as [s [t i p] tr]. simpl in *. subst p. rewrite Hf in Hc1.
  unfold login_shape. simpl. rewrite !count_call_snoc. simpl.
  split; [right; split; [done|by eexists]|]. split; lia.
Qed.

Lemma login_shape_handle (w : world) (ev : event) :
  login_shape w → login_shape (handle w ev).
Proof.
  intros Hw. destruct ev as [s|s| | |]; simpl.
  - destruct w as [s0 q tr]. exact Hw.
  - destruct w as [s0 q tr]. exact Hw.
  - destruct (isLoading (st w)) eqn:Hl; [exact Hw|].
    unfold handleEmailLogin. destruct (_ && _).
    + by apply login_shape_start_timer.
    + destruct Hw as (H1 & H2 & H3). destruct w as [s0 q tr].
      unfold login_shape, emit. simpl in *.
      rewrite !count_call_snoc. simpl. rewrite Hl in *.
      split; [exact H1|]. split; lia.
  - destruct (isLoading (st w)) eqn:Hl; [exact Hw|].
    by apply login_shape_start_timer.
  - destruct Hw as ([[Hl Hp]|[Hl (t & Hp & Hper)]] & H2 & H3).
    + unfold Timers.tick, Timers.fire. rewrite Hp.
      unfold login_shape. split; [by left|]. by split.
    + unfold Timers.tick. rewrite (fire_singleton _ t Hp), Hper.
      destruct w as [s0 [t0 i p] tr]. simpl in *. subst p. rewrite Hl in H2.
      unfold login_shape.
      destruct (Timers.action t); simpl; rewrite !count_call_snoc; simpl;
        (split; [by left|]; split; lia).
Qed.

(** X7. However the fields are typed in, the two buttons pressed and the
    timers left to fire, from the first render on: at most one timer is
    pending, and one is pending exactly while the loading flag is set
    (so a press never starts a second login beside a running one);
    every login begun ([SetIsLoading true]) has ended with exactly one
    call of [onLogin], except the one still running. *)
Theorem login_never_overlaps (t0 : N) (evs : list event) :
  let w := handle_all (world_init t0) evs in
  (length (Timers.pending (timers w)) ≤ 1)%nat
  ∧ (isLoading (st w) = true ↔ Timers.pending (timers w) ≠ [])
  ∧ (count_call OnLogin (trace w) + (if isLoading (st w) then 1 else 0)
     = count_call (SetIsLoading true) (trace w))%nat
  ∧ count_call (SetIsLoading false) (trace w) = count_call OnLogin (trace w).
Proof.
  intros w.
  assert (login_shape w) as ([[Hl Hp]|[Hl (t & Hp & _)]] & H2 & H3).
  { subst w. unfold handle_all.
    assert (login_shape (world_init t0)) as H0.
    { unfold login_shape. simpl. split; [by left|]. by split. }
    revert H0. generalize (world_init t0).
    induction evs as [|ev evs IH]; intros w0 H0; [exact H0|].
    simpl. apply IH. by apply login_shape_handle. }
  - rewrite Hl, Hp in *. simpl. split; [lia|]. by split.
  - rewrite Hl, Hp in *. simpl. split; [lia|]. by split.
Qed.

End login_more.

(** ** From the login screen to the tabs *)

Section login_to_app.
Import LoginScreen.
Local Open Scope list_scope.

(** X8. [App] starts on the login screen; with the calls made by
    [handleEmailLogin] (no timer pending before, its timer fired) it
    shows the tabs if and only if the two literals were entered, and
    stays on the login screen otherwise; with the calls made by
    [handleGoogleLogin] it shows the tabs whatever was entered, and not
    before the timer has fired. *)
Theorem login_opens_the_tabs (w : world) (fuel : nat) :
  Timers.pending (timers w) = [] →
  let by_email := calls_since w (run (S fuel) (handleEmailLogin w)) in
  let by_google := calls_since w (run (S fuel) (handleGoogleLogin w)) in
  let ok := email (st w) = "testuser@example.com"
            ∧ password (st w) = "Test@1234" in
  App.render App.isLoggedIn_init = App.Login App.OnLogin
  ∧ (App.render (App.after_login_calls App.isLoggedIn_init by_email)
     = App.Main ↔ ok)
  ∧ (¬ ok →
     App.render (App.after_login_calls App.isLoggedIn_init by_email)
     = App.Login App.OnLogin)
  ∧ App.render (App.after_login_calls App.isLoggedIn_init by_google)
    = App.Main
  ∧ App.render (App.after_login_calls App.isLoggedIn_init
                  (calls_since w (handleGoogleLogin w)))
    = App.Login App.OnLogin.
Proof.
  intros Hidle by_email by_google ok. subst by_email by_google.
  unfold calls_since.
  rewrite (handleEmailLogin_run w fuel Hidle),
          (handleGoogleLogin_run w fuel Hidle).
  split; [reflexivity|].
  assert (since w (handleGoogleLogin w)
          = [(Timers.now (timers w), SetIsLoading true)]) as ->.
  { destruct w as [s q tr]. unfold since. simpl. by rewrite drop_app_length. }
  destruct (bool_decide (email (st w) = "testuser@example.com")) eqn:He;
    [apply bool_decide_eq_true in He|apply bool_decide_eq_false in He];
  [destruct (bool_decide (password (st w) = "Test@1234")) eqn:Hp;
    [apply bool_decide_eq_true in Hp|apply bool_decide_eq_false in Hp]|];
  simpl; rewrite !since_app; simpl.
  - assert ok by done. repeat split; done.
  - assert (¬ ok) by (intros []; done). repeat split; done.
  - assert (¬ ok) by (intros []; done). repeat split; done.
Qed.

Lemma login_opens_the_tabs_witness :
  let w := {| st := {| email := "someone@example.com";
                       password := "guess"; isLoading := false |};
              timers := {| Timers.now := 0; Timers.next_id := 1;
                           Timers.pending := [] |};
              trace := [] |} in
  Timers.pending (timers w) = []
  ∧ App.render (App.after_login_calls App.isLoggedIn_init
                  (calls_since w (run 1 (handleEmailLogin w))))
    = App.Login App.OnLogin
  ∧ App.render (App.after_login_calls App.isLoggedIn_init
                  (calls_since w (run 1 (handleGoogleLogin w))))
    = App.Main.
Proof.
  intros w. split; [reflexivity|].
  pose proof (login_opens_the_tabs w 0 eq_refl) as (_ & _ & H3 & H4 & _).
  split; [|exact H4]. apply H3. intros [He _]. discriminate He.
Defined.

End login_to_app.

(** ** HomeScreen : blank queries and the voice button *)

Section home_more.
Import HomeScreen.
Local Open Scope list_scope.

Lemma trimStart_nil (s : list N) :
  trimStart s = [] ↔ Forall (λ c, is_white_space c = true) s.
Proof.
  induction s as [|c s IH]; simpl; [by split|].
  destruct (is_white_space c) eqn:Hc.
  - rewrite IH. split; [by constructor|]. by inversion 1.
  - split; [done|]. inversion 1; congruence.
Qed.

Lemma trimStart_suffix (s : list N) : ∃ ws, s = ws ++ trimStart s
  ∧ Forall (λ c, is_white_space c = true) ws.
Proof.
  induction s as [|c s (ws & IH & Hws)]; simpl; [by exists []|].
  destruct (is_white_space c) eqn:Hc.
  - exists (c :: ws). split; [simpl; by rewrite <- IH|by constructor].
  - by exists [].
Qed.

(** [trim] leaves nothing exactly when every code unit is white
    space. *)
Lemma trim_nil (s : list N) :
  trim s = [] ↔ Forall (λ c, is_white_space c = true) s.
Proof.
  unfold trim. split.
  - intros H. apply (f_equal reverse) in H.
    rewrite reverse_involutive, reverse_nil in H.
    apply trimStart_nil in H. rewrite Forall_reverse in H.
    destruct (trimStart_suffix s) as (ws & Hs & Hws).
    rewrite Hs. by apply Forall_app.
  - intros H. apply trimStart_nil in H. rewrite H. reflexivity.
Qed.

(** X9. [handleSearch] does nothing at all (no flag, no timer, no call)
    exactly when the query is empty or made of white space only;
    otherwise it sets the search flag and schedules its interval, even
    when a search is already on. *)
Theorem handleSearch_ignores_blank_queries (w : world) :
  (handleSearch w = w
   ↔ Forall (λ c, is_white_space c = true) (searchQuery (st w)))
  ∧ (¬ Forall (λ c, is_white_space c = true) (searchQuery (st w)) →
     isSearching (st (handleSearch w)) = true
     ∧ showResults (st (handleSearch w)) = false
     ∧ ∃ e, Timers.pending (timers (handleSearch w))
            = Timers.pending (timers w)
              ++ [Timers.Timer (Timers.next_id (timers w))
                    (Timers.now (timers w) + 1500)%N (Some 1500%N)
                    (ProgressTick e)]).
Proof.
  rewrite <- trim_nil. unfold handleSearch.
  destruct (trim (searchQuery (st w))) as [|c s]; simpl.
  - split; [done|]. intros H. by destruct H.
  - split.
    + split; [|done]. intros H. apply (f_equal (λ w, length (trace w))) in H.
      simpl in H. rewrite !length_app in H. simpl in H. lia.
    + intros _. split; [done|]. split; [done|]. by eexists.
Qed.

Lemma handleSearch_ignores_blank_queries_witness :
  let w := {| st := {| searchQuery := code_units "go";
                       isSearching := true; progressMessage := Some "";
                       showResults := false; isListening := false |};
              envs := [];
              timers := {| Timers.now := 0; Timers.next_id := 1;
                           Timers.pending := [] |};
              trace := [] |} in
  ¬ Forall (λ c, is_white_space c = true) (searchQuery (st w))
  ∧ ∃ e, Timers.pending (timers (handleSearch w))
         = [Timers.Timer 1 1500%N (Some 1500%N) (ProgressTick e)].
Proof.
  intros w.
  assert (¬ Forall (λ c, is_white_space c = true) (searchQuery (st w)))
    as Hq by (intros H; inversion H; discriminate).
  split; [exact Hq|].
  pose proof (handleSearch_ignores_blank_queries w) as [_ H2].
  destruct (H2 Hq) as (_ & _ & e & He). exists e. exact He.
Defined.

Lemma handleVoiceInput_run (w : world) (fuel : nat) :
  Timers.pending (timers w) = [] →
  let t := Timers.now (timers w) in
  let q := code_units "I want to go from Delhi to Mandi having greenery" in
  run (S fuel) (handleVoiceInput w) =
  {| st := {| searchQuery := q;
              isSearching := isSearching (st w);
              progressMessage := progressMessage (st w);
              showResults := showResults (st w);
              isListening := false |};
     envs := envs w;
     timers := {| Timers.now := (t + 2000)%N;
                  Timers.next_id := S (Timers.next_id (timers w));
                  Timers.pending := [] |};
     trace := trace w ++ [(t, SetIsListening true);
                          ((t + 2000)%N, SetSearchQuery q);
                          ((t + 2000)%N, SetIsListening false)] |}.
Proof.
  intros Hidle t q. unfold handleVoiceInput, run. erewrite run_step.
  2:{ unfold Timers.tick. erewrite fire_single; [reflexivity| |].
      - simpl. rewrite Hidle. reflexivity.
      - simpl. lia. }
  rewrite run_quiescent; [|reflexivity].
  destruct w as [s es [t0 i p] tr]. simpl in *. subst.
  unfold dispatch, setIsListening, setSearchQuery, update, set_timers; simpl.
  rewrite <- !app_assoc. reflexivity.
Qed.

Lemma since_finished (w : world) :
  since w (finished w)
  = [(Timers.now (timers w), SetIsSearching true);
     (Timers.now (timers w), SetShowResults false)]
    ++ shown (Timers.now (timers w)) 6
    ++ [((Timers.now (timers w) + 9000 + 1000)%N, SetIsSearching false);
        ((Timers.now (timers w) + 9000 + 1000)%N, SetShowResults true)].
Proof. unfold since, finished. cbn [trace]. by rewrite drop_app_length. Qed.

(** X10. The voice button, pressed with no timer pending: the listening flag
    is set at once, and two seconds later the query is the fixed
    sentence and the flag is cleared; the other fields of the state are
    untouched.  A search started then goes all the way: the six messages
    are written, each 1.5 s after the one before, and the results are
    shown 10 s after the search began. *)
Theorem voice_input_then_search (w : world) (f1 f2 : nat) :
  Timers.pending (timers w) = [] →
  let t := Timers.now (timers w) in
  let q := code_units "I want to go from Delhi to Mandi having greenery" in
  let w1 := run (S f1) (handleVoiceInput w) in
  let w2 := run (7 + f2) (handleSearch w1) in
  isListening (st (handleVoiceInput w)) = true
  ∧ since w w1 = [(t, SetIsListening true);
                  ((t + 2000)%N, SetSearchQuery q);
                  ((t + 2000)%N, SetIsListening false)]
  ∧ st w1 = {| searchQuery := q;
               isSearching := isSearching (st w);
               progressMessage := progressMessage (st w);
               showResults := showResults (st w);
               isListening := false |}
  ∧ messages_shown (since w1 w2)
    = imap (λ j m, ((t + 2000 + 1500 * N.of_nat (S j))%N, Some m))
           progressMessages
  ∧ showResults (st w2) = true
  ∧ isSearching (st w2) = false
  ∧ searchQuery (st w2) = q
  ∧ Timers.pending (timers w2) = [].
Proof.
  intros Hidle t q w1 w2. subst w2 w1.
  rewrite (handleVoiceInput_run w f1 Hidle). fold t q.
  set (w1 := {| st := _ |}).
  assert (trim (searchQuery (st w1)) ≠ []) as Hq
    by (vm_compute; discriminate).
  rewrite (handleSearch_searching w1 Hq eq_refl), run_finished.
  rewrite since_finished.
  split; [reflexivity|]. split.
  { unfold since, w1. cbn [trace]. by rewrite drop_app_length. }
  split; [reflexivity|]. repeat split; reflexivity.
Qed.

Lemma voice_input_then_search_witness :
  let w := world_init 0 in
  Timers.pending (timers w) = []
  ∧ showResults (st (run 7 (handleSearch (run 1 (handleVoiceInput w)))))
    = true.
Proof.
  intros w. split; [reflexivity|].
  pose proof (voice_input_then_search w 0 0 eq_refl)
    as (_ & _ & _ & _ & H & _).
  exact H.
Defined.

End home_more.

(** ** MapSection : the overlay and the placeholder *)

Section map_more.
Import MapSection.
Local Open Scope list_scope.
Context {number : Type}.
Variable js : number → string.

Lemma append_nil_r (n : string) : n +:+ "" = n.
Proof.
  induction n as [|c n IH]; [reflexivity|].
  change (String c (n +:+ "") = String c n). by rewrite IH.
Qed.

Lemma includes_refl (n : string) : includes n n = true.
Proof.
  apply includes_app. exists "", "". by rewrite append_nil_r.
Qed.

Lemma generateMapHTML_nonempty (coords : list position) :
  generateMapHTML js coords ≠ "".
Proof. intros H. vm_compute in H. discriminate H. Qed.

(** X11. The HTML built for a coordinate list that is not empty: the same
    tile layer and markers as without a route, then the declaration of
    [routeCoords] with the text [JSON.stringify] gives the positions
    (second number first), the polyline added to the map, and the call
    that fits the map to it. *)
Theorem route_overlay_for_coordinates (coords : list position) :
  coords ≠ [] →
  let html := generateMapHTML js coords in
  includes
    "L.tileLayer('https://{s}.tile.openstreetmap.org/{z}/{x}/{y}.png', {"
    html = true
  ∧ includes "var delhiMarker = L.marker([28.6139, 77.209]).addTo(map);"
      html = true
  ∧ includes "var mandiMarker = L.marker([31.7333, 76.9333]).addTo(map);"
      html = true
  ∧ includes ("var routeCoords = " +:+ JSON_stringify_swapped js coords
              +:+ ";") html = true
  ∧ includes
      "var polyline = L.polyline(routeCoords, {color: '#2E7D32', weight: 4}).addTo(map);"
      html = true
  ∧ includes "map.fitBounds(polyline.getBounds(), {padding: [50, 50]});"
      html = true.
Proof.
  intros Hne html. subst html. unfold generateMapHTML.
  rewrite !bool_decide_eq_true_2 by (destruct coords; [done|simpl; lia]).
  set (R := (polyline_decl_open +:+ _ +:+ polyline_decl_close) +:+ _).
  set (P := html_open
            +:+ Number_toString
                  (dec_half (dec_add (latitude Delhi) (latitude Mandi)))
            +:+ ", "
            +:+ Number_toString
                  (dec_half (dec_add (longitude Delhi) (longitude Mandi)))
            +:+ html_tiles
            +:+ Number_toString (latitude Delhi) +:+ ", "
            +:+ Number_toString (longitude Delhi)
            +:+ html_delhi_popup
            +:+ Number_toString (latitude Mandi) +:+ ", "
            +:+ Number_toString (longitude Mandi)
            +:+ html_mandi_popup).
  match goal with |- context [includes _ ?h] =>
    assert (h = P +:+ R) as -> by (subst P; by rewrite !append_assoc) end.
  split; [apply includes_append_r; vm_compute; reflexivity|].
  split; [apply includes_append_r; vm_compute; reflexivity|].
  split; [apply includes_append_r; vm_compute; reflexivity|].
  subst R. set (J := JSON_stringify_swapped js coords).
  split; [|split].
  - apply includes_append_l, includes_append_r. apply includes_app.
    exists "", (String.substring 1 1000 polyline_decl_close).
    unfold polyline_decl_open.
    rewrite !append_assoc. reflexivity.
  - apply includes_append_l, includes_append_r.
    do 2 apply includes_append_l. vm_compute. reflexivity.
  - do 3 apply includes_append_l. apply includes_append_r. reflexivity.
Qed.

Lemma has_setMapHTML_app (l1 l2 : list (call (number:=number))) :
  has_setMapHTML (l1 ++ l2) = has_setMapHTML l1 || has_setMapHTML l2.
Proof. apply existsb_app. Qed.

(** [mapHTML] is empty exactly as long as it has never been set. *)
Lemma mapHTML_empty_step (m : component) (ev : event) :
  (mapHTML (st m) = "" ↔ has_setMapHTML (trace m) = false) →
  (mapHTML (st (step js m ev)) = ""
   ↔ has_setMapHTML (trace (step js m ev)) = false).
Proof.
  intros Hm. destruct m as [sr s n tr]. destruct ev as [p|r]; simpl.
  - unfold rerender. simpl. destruct (bool_decide (sr = p)); [exact Hm|].
    unfold effect. simpl. destruct p; simpl; [|exact Hm].
    rewrite has_setMapHTML_app. simpl. by rewrite orb_false_r.
  - destruct n as [|n]; [exact Hm|].
    assert (∀ m', showResults (fetchRoute_resume js r m') = showResults m')
      as Hsr by (intros m'; destruct r as [?|[|? ?]]; reflexivity).
    unfold rerender. rewrite Hsr. simpl.
    rewrite bool_decide_eq_true_2 by done.
    destruct r as [?|[|r0 rs]]; simpl;
      rewrite !has_setMapHTML_app; simpl; rewrite orb_true_r;
      (split; [intros H; by apply generateMapHTML_nonempty in H|done]).
Qed.

(** X12. What the component shows in any run from its mount: nothing while
    [showResults] is false; the placeholder only as long as no response,
    good or bad, has been handled; after that always a web view on the
    HTML set last, also at the start of a later search, before its own
    response has arrived. *)
Theorem placeholder_only_before_first_response
    (p : bool) (evs : list event) :
  let m := steps js (mount p) evs in
  render m = if negb (showResults m) then Null
             else if has_setMapHTML (trace m) then WebView (mapHTML (st m))
             else Placeholder.
Proof.
  intros m.
  assert (mapHTML (st m) = "" ↔ has_setMapHTML (trace m) = false) as Hm.
  { subst m. unfold steps.
    assert (mapHTML (st (mount (number:=number) p)) = ""
            ↔ has_setMapHTML (trace (mount (number:=number) p)) = false)
      as H0 by (by destruct p).
    revert H0. generalize (mount (number:=number) p).
    induction evs as [|ev evs IH]; intros m0 H0; [exact H0|].
    simpl. apply IH. by apply mapHTML_empty_step. }
  unfold render. destruct (negb (showResults m)); [reflexivity|].
  destruct (has_setMapHTML (trace m)).
  - rewrite bool_decide_eq_false_2; [reflexivity|].
    intros H. apply Hm in H. discriminate.
  - rewrite bool_decide_eq_true_2; [reflexivity|]. by apply Hm.
Qed.

End map_more.

(** ** The numeric solver : the table and the answer *)

Section solver_more.
Import Solver.
Local Open Scope Z_scope.
Local Open Scope list_scope.

Lemma tally_snoc (a : list Z) (x : Z) :
  tally (a ++ [x])
  = f ← tally a;
    if bool_decide (0 ≤ x < MAX + 2)
    then Some (<[x := S (at_ f x)]> f) else None.
Proof. unfold tally. by rewrite foldl_snoc. Qed.

Lemma tally_counts (a : list Z) (f : gmap Z nat) :
  tally a = Some f → ∀ x, at_ f x = occurrences x a.
Proof.
  revert f. induction a as [|y a IH] using rev_ind; intros f Hf x.
  - injection Hf as <-. reflexivity.
  - rewrite tally_snoc in Hf. destruct (tally a) as [g|]; [|done].
    simpl in Hf. case_bool_decide; [|done]. injection Hf as <-.
    unfold occurrences. rewrite filter_app, length_app, filter_cons.
    fold (occurrences x a). rewrite <- (IH g eq_refl x).
    unfold at_. destruct (decide (y = x)) as [->|Hne].
    + rewrite lookup_insert_eq. simpl. unfold at_. lia.
    + rewrite lookup_insert_ne by done. simpl. lia.
Qed.

Lemma tally_defined (a : list Z) :
  is_Some (tally a) ↔ Forall (λ x, 0 ≤ x < MAX + 2) a.
Proof.
  induction a as [|y a IH] using rev_ind.
  - split; [by constructor|by eexists].
  - rewrite tally_snoc, Forall_app, Forall_singleton, <- IH.
    destruct (tally a) as [g|]; simpl.
    + case_bool_decide; split.
      * intros _. split; [by eexists|done].
      * by eexists.
      * by intros [? [=]].
      * by intros [_ ?].
    + split; [by intros [? [=]]|by intros [[? [=]] _]].
Qed.

(** X13. The table [f] is defined exactly when every number of the array is
    an index of it (0 to MAX + 1), and then [f[x]] is the number of
    positions of the array that hold [x], for every [x]. *)
Theorem tally_counts_occurrences (a : list Z) :
  (is_Some (tally a) ↔ Forall (λ x, 0 ≤ x < MAX + 2) a)
  ∧ (∀ f x, tally a = Some f → at_ f x = occurrences x a).
Proof.
  split; [apply tally_defined|]. intros f x Hf. by apply tally_counts.
Qed.

Lemma tally_counts_occurrences_witness :
  tally [3; 5; 3] = Some (<[3 := 2%nat]> (<[5 := 1%nat]> ∅))
  ∧ at_ (<[3 := 2%nat]> (<[5 := 1%nat]> ∅)) 3 = occurrences 3 [3; 5; 3].
Proof.
  assert (tally [3; 5; 3] = Some (<[3 := 2%nat]> (<[5 := 1%nat]> ∅))) as H.
  { vm_compute. reflexivity. }
  split; [exact H|].
  apply (tally_counts_occurrences [3; 5; 3]). exact H.
Defined.

(** *** The shortcut is taken exactly on a common factor *)

(** X14. For an array of numbers that are not negative, a test case takes
    the shortcut (and prints 0) if and only if two positions hold
    numbers with a common factor; an array of fewer than two numbers
    never takes it. *)
Theorem shortcut_iff_common_factor (t : test) :
  Forall (λ x, 0 ≤ x) (a t) →
  (test_case t = (Shortcut, Some 0)
   ↔ ∃ i j ai aj, (i < j)%nat ∧ a t !! i = Some ai ∧ a t !! j = Some aj
                  ∧ 1 < Z.gcd ai aj)
  ∧ (fst (test_case t) = Minimised
     ↔ ∀ i j ai aj, (i < j)%nat → a t !! i = Some ai → a t !! j = Some aj →
                    Z.gcd ai aj ≤ 1)
  ∧ ((length (a t) < 2)%nat → fst (test_case t) = Minimised).
Proof.
  intros Hpos. rewrite Forall_lookup in Hpos.
  assert (scan_i (a t) false = true
          ↔ ∃ i j ai aj, (i < j)%nat ∧ a t !! i = Some ai
                         ∧ a t !! j = Some aj ∧ 1 < Z.gcd ai aj) as Hs.
  { rewrite scan_i_spec. split; intros (i & j & ai & aj & Hij & Hi & Hj & Hg);
      exists i, j, ai, aj; repeat split; try done.
    - rewrite <- gcd_nonneg by eauto. done.
    - rewrite gcd_nonneg by eauto. done. }
  unfold test_case. destruct (scan_i (a t) false) eqn:Hscan.
  - destruct (proj1 Hs eq_refl) as (i & j & ai & aj & Hij & Hi & Hj & Hg).
    split; [split; [by intros _; exists i, j, ai, aj|done]|].
    split.
    + split; [done|]. intros H. specialize (H i j ai aj Hij Hi Hj). lia.
    + intros Hlen. apply lookup_lt_Some in Hj. lia.
  - split.
    + split; [done|]. intros H. apply Hs in H. done.
    + split; [|done]. split; [|done]. intros _ i j ai aj Hij Hi Hj.
      destruct (decide (Z.gcd ai aj ≤ 1)) as [|Hg]; [done|].
      assert (false = true); [|done].
      apply Hs. exists i, j, ai, aj. repeat split; try done. lia.
Qed.

Lemma shortcut_iff_common_factor_witness :
  Forall (λ x, 0 ≤ x) [9; 35; 8]
  ∧ fst (test_case {| a := [9]; dropped := [1] |}) = Minimised
  ∧ ∀ i j ai aj, (i < j)%nat → [9; 35; 8] !! i = Some ai →
                 [9; 35; 8] !! j = Some aj → Z.gcd ai aj ≤ 1.
Proof.
  assert (Forall (λ x, 0 ≤ x) [9; 35; 8]) as H by (repeat constructor; lia).
  split; [exact H|]. split.
  - apply (shortcut_iff_common_factor {| a := [9]; dropped := [1] |});
      [repeat constructor; lia|simpl; lia].
  - apply (shortcut_iff_common_factor {| a := [9; 35; 8]; dropped := [] |} H).
    reflexivity.
Defined.

End solver_more.

(** *** The value printed after the per-prime loop *)

Section solver_answer.
Import Solver.
Local Open Scope Z_scope.
Local Open Scope list_scope.




Lemma occurrences_app (x : Z) (l1 l2 : list Z) :
  occurrences x (l1 ++ l2) = (occurrences x l1 + occurrences x l2)%nat.
Proof. unfold occurrences. by rewrite filter_app, length_app. Qed.








Lemma occurrences_Permutation (x : Z) (l l' : list Z) :
  l ≡ₚ l' → occurrences x l = occurrences x l'.
Proof. intros H. unfold occurrences. by rewrite H. Qed.









End solver_answer.

(** ** HomeScreen : what the disabled buttons guarantee *)

Section timers_two.
Import Timers.
Context {callback : Type}.

Lemma fire_two (q : queue callback) (t1 t2 : timer callback) :
  pending q = [t1; t2] → timer_id t1 ≠ timer_id t2 →
  fire q
  = Some (if (due t2 <? due t1)%N
          then (t2, {| now := N.max (now q) (due t2);
                       next_id := next_id q;
                       pending :=
                         match period t2 with
                         | None => [t1]
                         | Some p => [t1; Timer (timer_id t2) (due t2 + p)%N
                                              (Some p) (action t2)]
                         end |})
          else (t1, {| now := N.max (now q) (due t1);
                       next_id := next_id q;
                       pending :=
                         match period t1 with
                         | None => [t2]
                         | Some p => [t2; Timer (timer_id t1) (due t1 + p)%N
                                              (Some p) (action t1)]
                         end |})).
Proof.
  intros Hp Hne. unfold fire. rewrite Hp. simpl.
  destruct (due t2 <? due t1)%N; unfold without;
    rewrite !filter_cons, filter_nil;
    repeat case_decide; try congruence; by destruct (period _).
Qed.

End timers_two.

Section home_invariant.
Import HomeScreen.
Local Open Scope list_scope.

Lemma home_count_snoc (c c' : call) (t : N) (l : list (N * call)) :
  count_call c (l ++ [(t, c')])
  = (count_call c l + if decide (c' = c) then 1 else 0)%nat.
Proof.
  unfold count_call. rewrite filter_app, length_app, filter_cons. simpl.
  by destruct (decide (c' = c)).
Qed.

Lemma progress_message_known (k : nat) :
  (k < 6)%nat → progressMessages !! k ∈ Some <$> progressMessages.
Proof.
  intros Hk. do 6 (destruct k as [|k]; [cbn; set_solver|]). lia.
Qed.

Lemma search_part_frame (w w' : world) (s : list (Timers.timer callback)) :
  isSearching (st w') = isSearching (st w) →
  (Timers.next_id (timers w) ≤ Timers.next_id (timers w'))%nat →
  (∀ e v, envs w !! e = Some v → envs w' !! e = Some v) →
  search_part w s → search_part w' s.
Proof.
  intros Hs Hn He. destruct s as [|t [|]]; simpl; [congruence| |done].
  intros (H1 & H2 & [H3|(e & k & H3 & H4 & H5 & H6)]).
  - split; [congruence|]. split; [lia|]. by left.
  - split; [congruence|]. split; [lia|]. right. exists e, k. eauto.
Qed.

Lemma voice_part_frame (w w' : world) (v : list (Timers.timer callback)) :
  isListening (st w') = isListening (st w) →
  (Timers.next_id (timers w) ≤ Timers.next_id (timers w'))%nat →
  voice_part w v → voice_part w' v.
Proof.
  intros Hs Hn. destruct v as [|t [|]]; simpl; [congruence| |done].
  intros (H1 & H2 & H3). split; [congruence|]. split; [lia|done].
Qed.

Lemma home_shape_changeText (w : world) (q : list N) :
  home_shape w → home_shape (setSearchQuery q w).
Proof.
  intros (s & v & Hp & Hs & Hv & Hd & Hc & Ht). exists s, v.
  split; [exact Hp|].
  split; [by apply (search_part_frame w)|].
  split; [by apply (voice_part_frame w)|].
  split; [exact Hd|]. simpl. rewrite !home_count_snoc. simpl.
  split; [lia|]. apply Forall_app. split; [exact Ht|].
  apply Forall_singleton. by intros m [=].
Qed.

Lemma home_shape_handleSearch (w : world) :
  home_shape w → isSearching (st w) = false → home_shape (handleSearch w).
Proof.
  intros (s & v & Hp & Hs & Hv & Hd & Hc & Ht) Hf.
  destruct s as [|ts [|]]; simpl in Hs; [|destruct Hs; congruence|done].
  assert (Timers.pending (timers w) = v) as Hpv
    by (destruct Hp as [->| ->]; [done|apply app_nil_r]).
  unfold handleSearch. destruct (truthy _).
  2:{ exists [], v. by repeat split. }
  destruct w as [s0 es [t i p] tr]. simpl in *. subst p.
  exists [Timers.Timer i (t + 1500)%N (Some 1500%N) (ProgressTick (length es))],
         v.
  split; [by right|]. rewrite Hf in Hc. split.
  { simpl. split; [done|]. split; [lia|]. right. exists (length es), 0%nat.
    repeat split; [|lia]. simpl. by rewrite lookup_app_r, Nat.sub_diag. }
  split.
  { destruct v as [|tv [|]]; simpl in *; [done| |done].
    destruct Hv as (H1 & H2 & H3). split; [done|]. split; [lia|done]. }
  split.
  { intros ts tv Hts Htv. apply list_elem_of_singleton in Hts as ->. simpl.
    destruct v as [|tv' [|]]; simpl in Hv; [by apply elem_of_nil in Htv| |done].
    apply list_elem_of_singleton in Htv as ->. lia. }
  simpl. rewrite !home_count_snoc. simpl. split; [lia|].
  rewrite !Forall_app, !Forall_singleton. repeat split; try done;
    by intros m [=].
Qed.

Lemma home_shape_handleVoiceInput (w : world) :
  home_shape w → isListening (st w) = false →
  home_shape (handleVoiceInput w).
Proof.
  intros (s & v & Hp & Hs & Hv & Hd & Hc & Ht) Hf.
  destruct v as [|tv [|]]; simpl in Hv; [|destruct Hv; congruence|done].
  assert (Timers.pending (timers w) = s) as Hps
    by (destruct Hp as [->| ->]; [apply app_nil_r|done]).
  destruct w as [s0 es [t i p] tr]. simpl in *. subst p.
  exists s, [Timers.Timer i (t + 2000)%N None VoiceDone].
  split; [by left|]. split.
  { destruct s as [|ts [|]]; simpl in *; [done| |done].
    destruct Hs as (H1 & H2 & H3). split; [done|]. split; [lia|done]. }
  split; [simpl; repeat split; (done || lia)|].
  split.
  { intros ts tv Hts Htv. apply list_elem_of_singleton in Htv as ->. simpl.
    destruct s as [|ts' [|]]; simpl in Hs; [by apply elem_of_nil in Hts| |done].
    apply list_elem_of_singleton in Hts as ->. lia. }
  simpl. rewrite !home_count_snoc. simpl. split; [lia|].
  rewrite !Forall_app, !Forall_singleton. repeat split; try done;
    by intros m [=].
Qed.

Lemma shape_after_voice (w : world) (q' : Timers.queue callback)
    (s : list (Timers.timer callback)) :
  search_part w s →
  Timers.next_id q' = Timers.next_id (timers w) →
  Timers.pending q' = s →
  (count_call (SetShowResults true) (trace w)
   + (if isSearching (st w) then 1 else 0)
   = count_call (SetIsSearching true) (trace w))%nat →
  Forall (λ tc, ∀ m, tc.2 = SetProgressMessage m →
                     m ∈ Some <$> progressMessages) (trace w) →
  home_shape (dispatch VoiceDone (set_timers q' w)).
Proof.
  intros Hs Hn Hp Hc Ht.
  destruct w as [s0 es [t i p] tr], q' as [t' i' p']. simpl in *. subst.
  exists s, []. split; [by right|]. split.
  { destruct s as [|ts [|]]; simpl in *; done. }
  split; [done|]. split; [intros ts tv _ Htv; by apply elem_of_nil in Htv|].
  simpl. rewrite !home_count_snoc. simpl. split; [lia|].
  rewrite !Forall_app, !Forall_singleton. repeat split; try done;
    by intros m [=].
Qed.

Lemma shape_after_search (w : world) (q' : Timers.queue callback)
    (ts : Timers.timer callback) (v : list (Timers.timer callback)) :
  search_part w [ts] → voice_part w v →
  (∀ tv, tv ∈ v → Timers.timer_id ts ≠ Timers.timer_id tv) →
  Timers.next_id q' = Timers.next_id (timers w) →
  Timers.pending q'
  = match Timers.period ts with
    | None => v
    | Some p => v ++ [Timers.Timer (Timers.timer_id ts)
                        (Timers.due ts + p)%N (Some p) (Timers.action ts)]
    end →
  (count_call (SetShowResults true) (trace w)
   + (if isSearching (st w) then 1 else 0)
   = count_call (SetIsSearching true) (trace w))%nat →
  Forall (λ tc, ∀ m, tc.2 = SetProgressMessage m →
                     m ∈ Some <$> progressMessages) (trace w) →
  home_shape (dispatch (Timers.action ts) (set_timers q' w)).
Proof.
  intros (Hs & Hid & Hkind) Hv Hd Hn Hp Hc Ht.
  destruct w as [s0 es [t i p] tr], q' as [t' i' p']. simpl in *. subst i'.
  rewrite Hs in Hc.
  destruct Hkind as [[Ha Hper]|(e & k & Ha & Hper & He & Hk)];
    rewrite Ha, Hper in *; subst p'.
  - exists [], v. split; [by left|]. split; [done|]. split.
    { destruct v as [|tv [|]]; simpl in *; done. }
    split; [intros ? tv Hx; by apply elem_of_nil in Hx|].
    simpl. rewrite !home_count_snoc. simpl. split; [lia|].
    rewrite !Forall_app, !Forall_singleton. repeat split; try done;
      by intros m [=].
  - simpl. unfold progressTick. simpl. rewrite He. simpl.
    pose proof (lookup_lt_Some _ _ _ He) as Hlen.
    assert (Forall (λ tc, ∀ m, tc.2 = SetProgressMessage m →
                      m ∈ Some <$> progressMessages)
              (tr ++ [(t', SetProgressMessage (progressMessages !! k))]))
      as Ht'.
    { rewrite Forall_app, Forall_singleton. split; [done|].
      intros m [= <-]. by apply progress_message_known. }
    case_bool_decide as Hlast; simpl in Hlast.
    + unfold setTimeout, clearInterval, set_envs, setProgressMessage, update,
        set_timers, Timers.clearInterval, Timers.setTimeout, Timers.schedule.
      simpl.
      assert (Timers.without (Timers.timer_id ts)
                (v ++ [Timers.Timer (Timers.timer_id ts)
                         (Timers.due ts + 1500)%N (Some 1500%N)
                         (ProgressTick e)]) = v) as ->.
      { unfold Timers.without. rewrite filter_app, filter_cons, filter_nil.
        simpl. destruct (decide (_ ≠ _)) as [Hx|_]; [done|].
        rewrite app_nil_r.
        destruct v as [|tv [|]]; simpl in Hv; [done| |done].
        rewrite filter_cons, filter_nil.
        destruct (decide (_ ≠ _)) as [_|Hx]; [done|].
        exfalso. apply Hx. intros Heq. apply (Hd tv); [left|done]. }
      exists [Timers.Timer i (t' + 1000)%N None SearchDone], v.
      split; [by right|]. split.
      { simpl. split; [done|]. split; [lia|]. by left. }
      split.
      { destruct v as [|tv [|]]; simpl in *; [done| |done].
        destruct Hv as (H1 & H2 & H3). split; [done|]. split; [lia|done]. }
      split.
      { intros ts' tv Hts Htv. apply list_elem_of_singleton in Hts as ->.
        simpl. destruct v as [|tv' [|]]; simpl in Hv;
          [by apply elem_of_nil in Htv| |done].
        apply list_elem_of_singleton in Htv as ->. lia. }
      simpl. rewrite !home_count_snoc. simpl. rewrite Hs. split; [lia|done].
    + unfold set_envs, setProgressMessage, update, set_timers. simpl.
      exists [Timers.Timer (Timers.timer_id ts) (Timers.due ts + 1500)%N
                (Some 1500%N) (ProgressTick e)], v.
      split; [by right|]. split.
      { simpl. split; [done|]. split; [done|]. right. exists e, (S k).
        repeat split; [|lia]. by apply list_lookup_insert_eq. }
      split.
      { destruct v as [|tv [|]]; simpl in *; done. }
      split.
      { intros ts' tv Hts Htv. apply list_elem_of_singleton in Hts as ->.
        simpl. by apply Hd. }
      simpl. rewrite !home_count_snoc. simpl. rewrite Hs. split; [lia|done].
Qed.

Lemma home_shape_tick (w : world) :
  home_shape w →
  home_shape (match Timers.tick timers set_timers dispatch w with
              | Some w' => w'
              | None => w
              end).
Proof.
  intros Hw. pose proof Hw as (s & v & Hp & Hs & Hv & Hd & Hc & Ht).
  unfold Timers.tick.
  destruct s as [|ts [|]]; [| |done]; (destruct v as [|tv [|]]; [| |done]).
  - assert (Timers.pending (timers w) = []) as Hnil by by destruct Hp.
    unfold Timers.fire. by rewrite Hnil.
  - assert (Timers.pending (timers w) = [tv]) as H1 by by destruct Hp.
    destruct Hv as (Hl & Hid & Ha & Hper).
    rewrite (fire_singleton _ tv H1), Ha, Hper.
    by apply (shape_after_voice w _ []).
  - assert (Timers.pending (timers w) = [ts]) as H1 by by destruct Hp.
    rewrite (fire_singleton _ ts H1).
    apply (shape_after_search w _ ts []);
      first [done
            |intros tv Htv; by apply elem_of_nil in Htv
            |simpl; by destruct (Timers.period ts)].
  - assert (Timers.timer_id ts ≠ Timers.timer_id tv) as Hne
      by (apply Hd; left).
    pose proof Hv as (Hl & Hid & Ha & Hper).
    destruct Hp as [Hp|Hp]; simpl in Hp.
    + rewrite (fire_two _ ts tv Hp Hne).
      destruct (Timers.due tv <? Timers.due ts)%N.
      * rewrite Ha, Hper. by apply (shape_after_voice w _ [ts]).
      * apply (shape_after_search w _ ts [tv]);
          first [done
                |intros tv' Htv; by apply list_elem_of_singleton in Htv as ->
                |simpl; by destruct (Timers.period ts)].
    + rewrite (fire_two _ tv ts Hp (not_eq_sym Hne)).
      destruct (Timers.due ts <? Timers.due tv)%N.
      * apply (shape_after_search w _ ts [tv]);
          first [done
                |intros tv' Htv; by apply list_elem_of_singleton in Htv as ->
                |simpl; by destruct (Timers.period ts)].
      * rewrite Ha, Hper. by apply (shape_after_voice w _ [ts]).
Qed.

Lemma home_shape_handle (w : world) (ev : event) :
  ev ≠ SubmitEditing → home_shape w → home_shape (handle w ev).
Proof.
  intros Hev Hw. destruct ev as [q| | | |]; simpl.
  - by apply home_shape_changeText.
  - destruct (isSearching (st w)) eqn:Hs; [done|].
    by apply home_shape_handleSearch.
  - done.
  - destruct (isListening (st w)) eqn:Hl; [done|].
    by apply home_shape_handleVoiceInput.
  - by apply home_shape_tick.
Qed.

Lemma home_shape_init (t0 : N) : home_shape (world_init t0).
Proof.
  exists [], []. split; [by left|]. split; [done|]. split; [done|].
  split; [intros ts tv Hts; by apply elem_of_nil in Hts|].
  split; [reflexivity|]. apply Forall_nil_2.
Qed.

(** X16. As long as the submit key of the keyboard is not used, from the
    first render on and whatever is typed, pressed and fired: at most
    one search is on at a time (one search timer is pending exactly when
    the search flag is set, none otherwise), and likewise for the voice
    button; every search begun has ended by showing the results, except
    the one still on; and every value written to [progressMessage] is
    one of the six messages, never undefined. *)
Theorem searches_never_overlap_without_submit (t0 : N) (evs : list event) :
  SubmitEditing ∉ evs →
  let w := handle_all (world_init t0) evs in
  length (search_timers (Timers.pending (timers w)))
  = (if isSearching (st w) then 1 else 0)%nat
  ∧ length (voice_timers (Timers.pending (timers w)))
    = (if isListening (st w) then 1 else 0)%nat
  ∧ (count_call (SetShowResults true) (trace w)
     + (if isSearching (st w) then 1 else 0)
     = count_call (SetIsSearching true) (trace w))%nat
  ∧ (∀ t m, (t, SetProgressMessage m) ∈ trace w →
            m ∈ Some <$> progressMessages).
Proof.
  intros Hev w.
  assert (home_shape w) as (s & v & Hp & Hs & Hv & Hd & Hc & Ht).
  { subst w. unfold handle_all.
    pose proof (home_shape_init t0) as H0. revert H0.
    generalize (world_init t0).
    induction evs as [|ev evs IH]; intros w0 H0; [exact H0|].
    simpl. apply not_elem_of_cons in Hev as [Hne Hev].
    apply IH; [exact Hev|]. by apply home_shape_handle. }
  assert (search_timers (Timers.pending (timers w)) = s
          ∧ voice_timers (Timers.pending (timers w)) = v) as [-> ->].
  { unfold search_timers, voice_timers.
    destruct s as [|ts [|]]; [| |done]; (destruct v as [|tv [|]]; [| |done]);
      simpl in Hs, Hv;
      destruct Hp as [-> | ->]; simpl;
      rewrite ?filter_cons, ?filter_nil;
      try (destruct Hv as (_ & _ & Hav & _));
      try (assert (Timers.action ts ≠ VoiceDone) as Hats
             by (destruct Hs as (_ & _ & [[-> _]|(? & ? & -> & _)]); done));
      repeat case_decide; try done. }
  split.
  { destruct s as [|ts [|]]; simpl in *; [by rewrite Hs| |done].
    destruct Hs as [-> _]. done. }
  split.
  { destruct v as [|tv [|]]; simpl in *; [by rewrite Hv| |done].
    destruct Hv as [-> _]. done. }
  split; [exact Hc|].
  intros t m Hin. rewrite Forall_forall in Ht. by apply (Ht _ Hin).
Qed.

Lemma searches_never_overlap_without_submit_witness :
  let evs := [ChangeText (code_units "Mandi"); PressSearch; PressSearch;
              TimerFires; PressVoice] in
  (SubmitEditing ∉ evs)
  ∧ length (search_timers
              (Timers.pending (timers (handle_all (world_init 0) evs))))
    = 1%nat.
Proof.
  intros evs.
  assert (SubmitEditing ∉ evs) as H.
  { intros Hin. subst evs.
    repeat (apply elem_of_cons in Hin as [Hin|Hin]; [discriminate Hin|]).
    by apply elem_of_nil in Hin. }
  split; [exact H|].
  pose proof (searches_never_overlap_without_submit 0 evs H) as [H1 _].
  exact H1.
Defined.

(** With the submit key the guard is gone: pressed while a search is
    on, it starts a second interval beside the first. *)
Lemma submit_starts_a_second_search :
  let w := handle_all (world_init 0)
             [ChangeText (code_units "Mandi"); PressSearch; SubmitEditing] in
  isSearching (st w) = true
  ∧ length (search_timers (Timers.pending (timers w))) = 2%nat.
Proof. split; reflexivity. Qed.

End home_invariant.

(** The overlay statement at a response made of natural numbers. *)
Section map_more_instances.
Import MapSection.
Local Open Scope list_scope.

Lemma route_overlay_for_coordinates_witness :
  let coords : list (position (number:=N)) := [[77; 28]; [76; 31]]%N in
  coords ≠ []
  ∧ includes "var routeCoords = [[28,77],[31,76]];"
      (generateMapHTML pretty coords) = true.
Proof.
  intros coords. assert (coords ≠ []) as H by discriminate.
  split; [exact H|].
  pose proof (route_overlay_for_coordinates (number:=N) pretty coords H)
    as (_ & _ & _ & H4 & _).
  exact H4.
Defined.

End map_more_instances.

(** ** HomeScreen and MapSection : one request per search *)

Section timers_fire.
Import Timers.
Context {callback : Type}.

Lemma earliest_elem (t : timer callback) (l : list (timer callback)) :
  earliest t l ∈ t :: l.
Proof.
  revert t. induction l as [|t' l IH]; intros t; simpl; [left|].
  destruct (due t' <? due t)%N.
  - right. apply IH.
  - specialize (IH t). apply elem_of_cons in IH as [->|IH]; [left|].
    right. by right.
Qed.

Lemma fire_elem (q q' : queue callback) (t : timer callback) :
  fire q = Some (t, q') → t ∈ pending q.
Proof.
  unfold fire. destruct (pending q) as [|t0 l] eqn:Hp; [done|].
  intros [= <- _]. apply earliest_elem.
Qed.

End timers_fire.

Section search_requests.
Import HomeScreen HomeWithMap.
Local Open Scope list_scope.
Context {number : Type}.
Variable js : number → string.

Lemma steps_showResults (evs : list MapSection.event)
    (m : MapSection.component (number:=number)) :
  MapSection.showResults (MapSection.steps js m evs)
  = foldl (λ p ev, match ev with
                   | MapSection.Render p' => p'
                   | MapSection.Settled _ => p
                   end) (MapSection.showResults m) evs.
Proof.
  revert m. unfold MapSection.steps.
  induction evs as [|ev evs IH]; intros m; [reflexivity|].
  simpl. by rewrite IH, step_showResults.
Qed.


Lemma last_prop_app (p : bool) (cs1 cs2 : list call) :
  last_prop p (cs1 ++ cs2) = last_prop (last_prop p cs1) cs2.
Proof. apply foldl_app. Qed.

Lemma edges_app (p : bool) (cs1 cs2 : list call) :
  edges number p (cs1 ++ cs2)
  = (edges number p cs1 + edges number (last_prop p cs1) cs2)%nat.
Proof.
  unfold HomeWithMap.edges.
  revert p. induction cs1 as [|c cs1 IH]; intros p; [reflexivity|].
  simpl. rewrite IH. unfold last_prop. simpl. lia.
Qed.

Lemma count_call_app (c : call) (l1 l2 : list (N * call)) :
  count_call c (l1 ++ l2) = (count_call c l1 + count_call c l2)%nat.
Proof. unfold count_call. by rewrite filter_app, length_app. Qed.

Lemma requests_shape_extend (w w' : world) (l : list (N * call)) :
  requests_shape number w →
  trace w' = trace w ++ l →
  showResults (st w') = last_prop (showResults (st w)) l.*2 →
  (isSearching (st w') = true → showResults (st w') = false) →
  edges number (showResults (st w)) l.*2
  = count_call (SetShowResults true) l →
  requests_shape number w'.
Proof.
  intros (H1 & H2 & H3) Ht Hs Hi He. unfold requests_shape.
  rewrite Ht, fmap_app, last_prop_app, edges_app, count_call_app, <- H1, <- H3.
  split; [done|]. split; [done|]. by rewrite He.
Qed.

Lemma requests_shape_same (w w' : world) :
  requests_shape number w → trace w' = trace w →
  showResults (st w') = showResults (st w) →
  isSearching (st w') = isSearching (st w) →
  requests_shape number w'.
Proof.
  intros Hw Ht Hs Hi. apply (requests_shape_extend w w' []); try done.
  - by rewrite app_nil_r.
  - destruct Hw as (_ & H2 & _). rewrite Hs, Hi. exact H2.
Qed.

Lemma requests_shape_handleSearch (w : world) :
  requests_shape number w → requests_shape number (handleSearch w).
Proof.
  intros Hw. unfold handleSearch. destruct (truthy _); [|done].
  destruct w as [s0 es [t i p] tr].
  eapply (requests_shape_extend _ _
            [(t, SetIsSearching true); (t, SetShowResults false)] Hw).
  - simpl. by rewrite <- app_assoc.
  - reflexivity.
  - reflexivity.
  - simpl. by destruct (showResults s0).
Qed.

Lemma requests_shape_dispatch (w : world) (q : Timers.queue callback)
    (cb : callback) :
  requests_shape number w →
  (cb = SearchDone → isSearching (st w) = true) →
  requests_shape number (dispatch cb (set_timers q w)).
Proof.
  intros Hw Hcb. destruct w as [s0 es q0 tr]. destruct cb as [e| |]; simpl.
  - unfold progressTick. simpl. destruct (es !! e) as [v|]; simpl.
    + case_bool_decide;
        (eapply (requests_shape_extend _ _
                   [(Timers.now q, SetProgressMessage (progressMessages !! messageIndex v))] Hw);
         [reflexivity|reflexivity|apply Hw|simpl; by destruct (showResults s0)]).
    + by apply (requests_shape_same _ _ Hw).
  - pose proof Hw as (_ & H2 & _). simpl in H2, Hcb.
    eapply (requests_shape_extend _ _
              [(Timers.now q, SetIsSearching false);
               (Timers.now q, SetShowResults true)] Hw).
    + simpl. by rewrite <- app_assoc.
    + reflexivity.
    + done.
    + simpl. rewrite (H2 (Hcb eq_refl)). reflexivity.
  - eapply (requests_shape_extend _ _
              [(Timers.now q, SetSearchQuery _);
               (Timers.now q, SetIsListening false)] Hw).
    + simpl. by rewrite <- app_assoc.
    + reflexivity.
    + apply Hw.
    + simpl. by destruct (showResults s0).
Qed.

Lemma search_timer_means_searching (w : world) (t : Timers.timer callback) :
  home_shape w → t ∈ Timers.pending (timers w) →
  Timers.action t = SearchDone → isSearching (st w) = true.
Proof.
  intros (s & v & Hp & Hs & Hv & _) Ht Ha.
  assert (t ∈ s ∨ t ∈ v) as [Hin|Hin].
  { destruct Hp as [Hp|Hp]; rewrite Hp, elem_of_app in Ht; tauto. }
  - destruct s as [|ts [|]]; simpl in Hs; [by apply elem_of_nil in Hin| |done].
    by destruct Hs.
  - destruct v as [|tv [|]]; simpl in Hv; [by apply elem_of_nil in Hin| |done].
    apply list_elem_of_singleton in Hin as ->.
    destruct Hv as (_ & _ & Hav & _). congruence.
Qed.

Lemma requests_shape_handle (w : world) (ev : event) :
  ev ≠ SubmitEditing → home_shape w → requests_shape number w →
  requests_shape number (handle w ev).
Proof.
  intros Hev Hh Hw. destruct ev as [q| | | |]; simpl.
  - destruct w as [s0 es q0 tr].
    eapply (requests_shape_extend _ _ [(Timers.now q0, SetSearchQuery q)] Hw);
      [reflexivity|reflexivity|apply Hw|simpl; by destruct (showResults s0)].
  - destruct (isSearching (st w)); [done|].
    by apply requests_shape_handleSearch.
  - done.
  - destruct (isListening (st w)); [done|].
    destruct w as [s0 es q0 tr].
    eapply (requests_shape_extend _ _ [(Timers.now q0, SetIsListening true)] Hw);
      [reflexivity|reflexivity|apply Hw|simpl; by destruct (showResults s0)].
  - unfold Timers.tick.
    destruct (Timers.fire (timers w)) as [[t q]|] eqn:Hf; [|done].
    apply requests_shape_dispatch; [done|].
    intros Ha. apply (search_timer_means_searching w t Hh); [|done].
    by apply (fire_elem _ q).
Qed.

Lemma requests_shape_init (t0 : N) : requests_shape number (world_init t0).
Proof. by repeat split. Qed.

(** X17. As long as the submit key of the keyboard is not used, from the
    first render on and whatever is typed, pressed and fired:
    [MapSection], rendered with the [showResults] of the screen after
    each state setter, has sent exactly one routing request per search
    that has ended, that is one per search begun less the one still on;
    it holds the [showResults] of the screen; and the results are hidden
    while a search is on. *)
Theorem each_search_sends_one_request (t0 : N) (evs : list event) :
  SubmitEditing ∉ evs →
  let w := handle_all (world_init t0) evs in
  let m := MapSection.steps js (MapSection.mount false)
             (HomeWithMap.renders false (trace w).*2) in
  MapSection.requests (MapSection.trace m)
  = replicate (count_call (SetShowResults true) (trace w))
              MapSection.route_url
  ∧ (count_call (SetShowResults true) (trace w)
     + (if isSearching (st w) then 1 else 0)
     = count_call (SetIsSearching true) (trace w))%nat
  ∧ MapSection.showResults m = showResults (st w)
  ∧ (isSearching (st w) = true → showResults (st w) = false).
Proof.
  intros Hev w m.
  assert (home_shape w ∧ requests_shape number w) as [Hh (H1 & H2 & H3)].
  { subst w. unfold handle_all.
    pose proof (home_shape_init t0) as Hh0.
    pose proof (requests_shape_init t0) as Hr0. revert Hh0 Hr0.
    generalize (world_init t0).
    induction evs as [|ev evs IH]; intros w0 Hh0 Hr0; [done|].
    simpl. apply not_elem_of_cons in Hev as [Hne Hev].
    apply IH; [exact Hev| |].
    - by apply home_shape_handle.
    - by apply requests_shape_handle. }
  subst m. rewrite steps_requests, steps_showResults.
  change (MapSection.showResults (MapSection.mount false)) with false.
  change (MapSection.requests (MapSection.trace (MapSection.mount false)))
    with (@nil string).
  unfold edges in H3. rewrite H3.
  split; [reflexivity|].
  split; [by destruct Hh as (s & v & _ & _ & _ & _ & Hc & _)|].
  split; [|exact H2].
  rewrite H1. generalize false. generalize ((trace w).*2).
  induction l as [|c l IH]; intros p; [reflexivity|]. simpl. by rewrite IH.
Qed.

End search_requests.

Section search_requests_instance.
Import HomeScreen.
Local Open Scope list_scope.

Lemma each_search_sends_one_request_witness :
  let evs := [ChangeText (code_units "Mandi"); PressSearch]
             ++ replicate 7 TimerFires
             ++ [PressVoice; PressSearch; PressSearch]
             ++ replicate 8 TimerFires
             ++ [PressSearch; TimerFires] in
  let w := handle_all (world_init 0) evs in
  (SubmitEditing ∉ evs)
  ∧ count_call (SetIsSearching true) (trace w) = 3%nat
  ∧ isSearching (st w) = true
  ∧ MapSection.requests
      (MapSection.trace
         (MapSection.steps (number:=N) pretty (MapSection.mount false)
            (HomeWithMap.renders false (trace w).*2)))
    = [MapSection.route_url; MapSection.route_url].
Proof.
  intros evs w.
  assert (SubmitEditing ∉ evs) as H.
  { intros Hin. subst evs. simpl in Hin.
    repeat (apply elem_of_cons in Hin as [Hin|Hin]; [discriminate Hin|]).
    by apply elem_of_nil in Hin. }
  split; [exact H|]. split; [reflexivity|]. split; [reflexivity|].
  pose proof (each_search_sends_one_request (number:=N) pretty 0 evs H)
    as [H1 _].
  etrans; [exact H1|]. reflexivity.
Defined.

(** With the submit key two searches can be on at once; they end one
    after the other with the results already showing, and the two share
    one request. *)
Lemma overlapping_searches_share_a_request :
  let evs := [ChangeText (code_units "Mandi"); PressSearch; TimerFires;
              SubmitEditing] ++ replicate 13 TimerFires in
  let w := handle_all (world_init 0) evs in
  count_call (SetIsSearching true) (trace w) = 2%nat
  ∧ count_call (SetShowResults true) (trace w) = 2%nat
  ∧ Timers.pending (timers w) = []
  ∧ MapSection.requests
      (MapSection.trace
         (MapSection.steps (number:=N) pretty (MapSection.mount false)
            (HomeWithMap.renders false (trace w).*2)))
    = [MapSection.route_url].
Proof. repeat split; vm_compute; reflexivity. Qed.

End search_requests_instance.

(** ** The numeric solver : the order of the array *)

Section solver_order.
Import Solver.
Local Open Scope Z_scope.
Local Open Scope list_scope.

Lemma occurrences_singleton (x y : Z) :
  occurrences x [y] = if decide (y = x) then 1%nat else 0%nat.
Proof.
  unfold occurrences. rewrite filter_cons, filter_nil.
  by destruct (decide (y = x)).
Qed.

Lemma tally_lookup (a : list Z) (f : gmap Z nat) :
  tally a = Some f →
  ∀ x, f !! x = if decide (occurrences x a = 0%nat) then None
                else Some (occurrences x a).
Proof.
  revert f. induction a as [|y a IH] using rev_ind; intros f Hf x.
  - injection Hf as <-. by rewrite lookup_empty.
  - rewrite tally_snoc in Hf. destruct (tally a) as [g|] eqn:Hg; [|done].
    simpl in Hf. case_bool_decide; [|done]. injection Hf as <-.
    rewrite occurrences_app, occurrences_singleton.
    destruct (decide (y = x)) as [->|Hne]; simpl.
    + rewrite lookup_insert_eq, (tally_counts a g Hg).
      case_decide; [lia|]. f_equal. lia.
    + rewrite lookup_insert_ne, (IH g eq_refl x) by done.
      rewrite Nat.add_0_r. done.
Qed.

Lemma tally_Permutation (a a' : list Z) : a ≡ₚ a' → tally a = tally a'.
Proof.
  intros Hp.
  destruct (tally a) as [f|] eqn:Hf, (tally a') as [f'|] eqn:Hf'.
  - f_equal. apply map_eq. intros x.
    rewrite (tally_lookup a f Hf), (tally_lookup a' f' Hf').
    by rewrite (occurrences_Permutation x a a' Hp).
  - assert (is_Some (tally a')) as [? ?]; [|congruence].
    apply tally_defined. rewrite <- Hp. apply tally_defined. by eexists.
  - assert (is_Some (tally a)) as [? ?]; [|congruence].
    apply tally_defined. rewrite Hp. apply tally_defined. by eexists.
  - done.
Qed.

Lemma pair_Permutation (a a' : list Z) :
  a ≡ₚ a' →
  (∃ i j ai aj, (i < j)%nat ∧ a !! i = Some ai ∧ a !! j = Some aj
                ∧ 1 < Z.gcd ai aj) →
  ∃ i j ai aj, (i < j)%nat ∧ a' !! i = Some ai ∧ a' !! j = Some aj
               ∧ 1 < Z.gcd ai aj.
Proof.
  intros Hp (i & j & ai & aj & Hij & Hi & Hj & Hg).
  apply Permutation_inj in Hp as (_ & f & Hinj & Hf).
  rewrite Hf in Hi, Hj.
  assert (f i ≠ f j) as Hne by (intros H; apply Hinj in H; lia).
  destruct (decide (f i < f j)%nat).
  - by exists (f i), (f j), ai, aj.
  - exists (f j), (f i), aj, ai. split; [lia|]. split; [done|].
    split; [done|]. by rewrite Z.gcd_comm.
Qed.

(** With negative numbers the order can matter: the loop of [__gcd]
    gives 2 for (-2, 2) and -2 for (2, -2). *)
Lemma scan_order_matters_on_negatives :
  scan_i [-2; 2] false = true ∧ scan_i [2; -2] false = false.
Proof. split; reflexivity. Qed.

(** X18. For arrays of numbers that are not negative, what a test case
    does (the path taken and the line printed, or the absence of a
    defined behaviour) does not depend on the order of the numbers. *)
Theorem test_case_order_independent (t t' : test) :
  Forall (λ x, 0 ≤ x) (a t) → a t ≡ₚ a t' → test_case t = test_case t'.
Proof.
  intros Hpos Hp.
  assert (Forall (λ x, 0 ≤ x) (a t')) as Hpos' by by rewrite <- Hp.
  rewrite Forall_lookup in Hpos, Hpos'.
  assert (∀ l, (∀ i x, l !! i = Some x → 0 ≤ x) →
               (scan_i l false = true
                ↔ ∃ i j ai aj, (i < j)%nat ∧ l !! i = Some ai
                               ∧ l !! j = Some aj ∧ 1 < Z.gcd ai aj)) as Hs.
  { intros l Hl. rewrite scan_i_spec.
    split; intros (i & j & ai & aj & Hij & Hi & Hj & Hg);
      exists i, j, ai, aj; repeat split; try done.
    - rewrite <- gcd_nonneg by eauto. done.
    - rewrite gcd_nonneg by eauto. done. }
  assert (scan_i (a t) false = scan_i (a t') false) as Hscan.
  { apply eq_true_iff_eq. rewrite (Hs _ Hpos), (Hs _ Hpos').
    split; apply pair_Permutation; [done|by symmetry]. }
  unfold test_case. rewrite Hscan, (tally_Permutation _ _ Hp). done.
Qed.

Lemma test_case_order_independent_witness :
  (Forall (λ x, 0 ≤ x) [4; 9; 6] ∧ [4; 9; 6] ≡ₚ [9; 6; 4])
  ∧ test_case {| a := [4; 9; 6]; dropped := [] |}
    = test_case {| a := [9; 6; 4]; dropped := [] |}.
Proof.
  assert (Forall (λ x, 0 ≤ x) [4; 9; 6]) as H1 by (repeat constructor; lia).
  assert ([4; 9; 6] ≡ₚ [9; 6; 4]) as H2.
  { etrans; [apply Permutation_swap|]. apply Permutation_skip.
    apply Permutation_swap. }
  split; [split; [exact H1|exact H2]|].
  exact (test_case_order_independent {| a := [4; 9; 6]; dropped := [] |}
           {| a := [9; 6; 4]; dropped := [] |} H1 H2).
Defined.

End solver_order.
